(** * NYTDigits: the Digits puzzle model and the breadth-first puzzle solver

    A shallow embedding of [nytdigits.py] (class [DigitsPuzzle]) and of
    [puzzlesolver.py] (class [PuzzleSolver]), with the properties of the
    repository's specification stated and proved about it.

    Definitions:
    - Python values, exceptions and the list primitives the code calls;
    - [DigitsPuzzle] as a record with its methods in state-passing style,
      the invariant of an instance and the move set as the specification
      words it;
    - [Heap]: the same methods over an object store, where the in-place
      mutation of [self.sources] and the sharing of objects are visible;
    - [PuzzleSolver]: the generator [_solve] as a step function, [solve]
      driving it, and the measures and invariants of a search.

    Theorems:
    - the scenarios of [nytdigitstests.py], evaluated on the model;
    - the list primitives, [DigitsPuzzle], the object store, the solver;
    - the claims of the specification. *)

From stdpp Require Import base decidable option list sorting countable gmap.
From Stdlib Require Import ZArith Lia.

#[local] Open Scope Z_scope.
#[local] Set Warnings "-clear-no-such-hyp".

(** ** Python values and exceptions *)

(** The exceptions the two modules can raise. *)
Inductive exn : Type :=
  | ValueError
  | IndexError
  | ZeroDivisionError.

(** The outcome of a call: a returned value or a raised exception. *)
Inductive res (A : Type) : Type :=
  | Ret (a : A)
  | Raise (e : exn).
Arguments Ret {A} a.
Arguments Raise {A} e.

Definition res_bind {A B} (r : res A) (k : A → res B) : res B :=
  match r with
  | Ret a => k a
  | Raise e => Raise e
  end.

(** What the attribute [forced_operand], and so the last slot of a
    canonical state, can hold: [None], the sentinel [CHAINMODE] (an
    [object()], equal only to itself), or an integer. *)
Inductive value : Type :=
  | VNone
  | VChain
  | VInt (z : Z).

#[global] Instance value_eq_dec : EqDecision value.
Proof. solve_decision. Defined.

#[global] Instance VInt_inj : Inj (=) (=) VInt.
Proof. intros x y Hxy. by injection Hxy. Qed.

Definition value_to_sum (v : value) : (bool + Z) :=
  match v with
  | VNone => inl false
  | VChain => inl true
  | VInt z => inr z
  end.

Definition value_of_sum (s : bool + Z) : value :=
  match s with
  | inl false => VNone
  | inl true => VChain
  | inr z => VInt z
  end.

#[global] Instance value_countable : Countable value.
Proof.
  apply (inj_countable' value_to_sum value_of_sum).
  by intros [].
Defined.

(** Truth value of [if self.forced_operand:]: [None] is false, an
    [object()] is true, an integer is true unless it is zero. *)
Definition truthy (v : value) : bool :=
  match v with
  | VNone => false
  | VChain => true
  | VInt z => negb (z =? 0)
  end.

(** ** List primitives *)

(** [sorted(xs, reverse=True)] on integers. *)
Definition Zge_rel : relation Z := λ x y, y ≤ x.

#[global] Instance Zge_rel_dec x y : Decision (Zge_rel x y) := Z_le_dec y x.

Definition sorted_reverse (xs : list Z) : list Z := merge_sort Zge_rel xs.

(** [xs.remove(x)]: drop the first element equal to [x]; [None] stands
    for the [ValueError] raised when there is none. *)
Fixpoint py_remove (x : Z) (xs : list Z) : option (list Z) :=
  match xs with
  | [] => None
  | y :: ys => if decide (y = x) then Some ys
               else cons y <$> py_remove x ys
  end.

(** [xs[-1]]: the last element, [IndexError] on the empty list. *)
Definition py_last (xs : list Z) : res Z :=
  match last xs with
  | Some x => Ret x
  | None => Raise IndexError
  end.

(** [itertools.takewhile(pred, g)] over an iterator [g] that is shared
    with the caller: returns the items produced and what is left in [g].
    The first item failing [pred] is consumed from [g] and dropped. *)
Fixpoint takewhile (pred : Z → bool) (g : list Z) : list Z * list Z :=
  match g with
  | [] => ([], [])
  | x :: g' =>
      if pred x then let '(taken, rest) := takewhile pred g' in (x :: taken, rest)
      else ([], g')
  end.

(** [itertools.combinations(xs, 2)]: pairs of positions [i < j], in
    lexicographic order of the positions. *)
Fixpoint combinations2 (xs : list Z) : list (Z * Z) :=
  match xs with
  | [] => []
  | x :: xs' => (pair x <$> xs') ++ combinations2 xs'
  end.

(** ** Moves *)

(** The four operators of the [operator] module a move can carry. *)
Inductive op : Type :=
  | Add
  | Sub
  | Mul
  | FloorDiv.

#[global] Instance op_eq_dec : EqDecision op.
Proof. solve_decision. Defined.

(** A move is a tuple [(op, (a, b))]. *)
Definition move_tuple : Type := op * (Z * Z).

(** [op(a, b)] on Python integers; [//] floors and raises on a zero
    divisor. *)
Definition apply_op (o : op) (a b : Z) : res Z :=
  match o with
  | Add => Ret (a + b)
  | Sub => Ret (a - b)
  | Mul => Ret (a * b)
  | FloorDiv => if decide (b = 0) then Raise ZeroDivisionError else Ret (a `div` b)
  end.

(** ** DigitsPuzzle *)

Record puzzle : Type := Puzzle {
  target : Z;
  sources : list Z;
  forced_operand : value;
}.

#[global] Instance puzzle_eq_dec : EqDecision puzzle.
Proof. solve_decision. Defined.

(** [DigitsPuzzle.__init__(target, *sources, forced_operand=...)]. *)
Definition init (tgt : Z) (srcs : list Z) (forced : value) : res puzzle :=
  let self := Puzzle tgt (sorted_reverse srcs) forced in
  res_bind (py_last (sources self)) (λ smallest,
    if decide (smallest ≤ 0) then Raise ValueError else Ret self).

(** [chainmode(v)], with [v] already reduced to its truth value. *)
Definition chainmode (v : bool) (self : puzzle) : puzzle :=
  Puzzle (target self) (sources self) (if v then VChain else VNone).

(** The property [endstate]. *)
Definition endstate (self : puzzle) : bool :=
  bool_decide (target self ∈ sources self).

(** [clone()]: a new instance built by the constructor. *)
Definition clone (self : puzzle) : res puzzle :=
  init (target self) (sources self) (forced_operand self).

(** [self.forced_operand in self.sources]. *)
Definition forced_in_sources (self : puzzle) : bool :=
  match forced_operand self with
  | VInt f => bool_decide (f ∈ sources self)
  | _ => false
  end.

(** The candidate pool of the forced branch of [_sourcecombos]:
    [chain(takewhile(lambda x: x != f, g), g)] with [g = iter(sources)]. *)
Definition forced_pool (f : Z) (srcs : list Z) : list Z :=
  let '(taken, g) := takewhile (λ x, negb (bool_decide (x = f))) srcs in
  taken ++ g.

(** [_sourcecombos()]. *)
Definition _sourcecombos (self : puzzle) : list (Z * Z) :=
  match forced_operand self with
  | VInt f =>
      if bool_decide (f ∈ sources self)
      then pair f <$> forced_pool f (sources self)
      else combinations2 (sources self)
  | _ => combinations2 (sources self)
  end.

(** [legalmoves()]: the four generator expressions, in the order of the
    [yield from] statements.  Python's [a % b] raises on [b = 0] where
    [mod] returns [a]; [b] is drawn from [sources], which holds no zero
    in any instance (see [sourcecombos_divisor_pos]). *)
Definition legalmoves (self : puzzle) : list move_tuple :=
  (pair Add <$> _sourcecombos self)
  ++ (pair Sub <$> filter (λ ab, ab.2 < ab.1) (_sourcecombos self))
  ++ (pair Mul <$> filter (λ ab, ab.2 ≠ 1) (_sourcecombos self))
  ++ (pair FloorDiv <$>
        filter (λ ab, ab.1 `mod` ab.2 = 0 ∧ ab.2 ≠ 1) (_sourcecombos self)).

(** [for x in operands: self.sources.remove(x)]: the list left after the
    removals that succeeded, and whether one of them raised. *)
Definition remove_operands (a b : Z) (srcs : list Z) : list Z * res () :=
  match py_remove a srcs with
  | None => (srcs, Raise ValueError)
  | Some s1 =>
      match py_remove b s1 with
      | None => (s1, Raise ValueError)
      | Some s2 => (s2, Ret ())
      end
  end.

(** [move(m)] in state-passing style: the state of [self] when the call
    ends, and how it ends.  The removals happen before the result is
    computed and checked. *)
Definition move (m : move_tuple) (self : puzzle) : puzzle * res () :=
  let '(o, (a, b)) := m in
  let '(s2, r) := remove_operands a b (sources self) in
  let self1 := Puzzle (target self) s2 (forced_operand self) in
  match r with
  | Raise e => (self1, Raise e)
  | Ret _ =>
      match apply_op o a b with
      | Raise e => (self1, Raise e)
      | Ret rslt =>
          if decide (rslt ≤ 0) then (self1, Raise ValueError)
          else
            let forced' := if truthy (forced_operand self1) then VInt rslt
                           else forced_operand self1 in
            (Puzzle (target self1) (sorted_reverse (s2 ++ [rslt])) forced',
             Ret ())
      end
  end.

(** [copy_and_move(m)]: [self.clone().move(m)]; the value returned is the
    clone after the move. *)
Definition copy_and_move (self : puzzle) (m : move_tuple) : res puzzle :=
  res_bind (clone self) (λ c,
    let '(c', r) := move m c in
    res_bind r (λ _, Ret c')).

(** [canonicalstate()]: [tuple(self.sources + [self.forced_operand])]. *)
Definition canonicalstate (self : puzzle) : list value :=
  (VInt <$> sources self) ++ [forced_operand self].

(** ** The invariant of an instance, and the move set in the specification's words *)

Definition positive_sources (p : puzzle) : Prop :=
  Forall (λ x, 0 < x) (sources p).

Definition sorted_sources (p : puzzle) : Prop :=
  Sorted Zge_rel (sources p).

(** What the constructor establishes and every method keeps. *)
Record valid (p : puzzle) : Prop := Valid {
  valid_nonempty : sources p ≠ [];
  valid_sorted : sorted_sources p;
  valid_positive : positive_sources p;
}.

(** The legality conditions of the specification's table: subtract when
    [a > b], multiply when [b ≠ 1], divide when [a] is evenly divisible
    by [b] and [b ≠ 1]. *)
Definition legal (o : op) (a b : Z) : Prop :=
  match o with
  | Add => True
  | Sub => a > b
  | Mul => b ≠ 1
  | FloorDiv => Z.divide b a ∧ b ≠ 1
  end.

#[global] Instance Z_divide_dec b a : Decision (Z.divide b a).
Proof.
  refine (cast_if
    (decide (((a =? 0) || negb (b =? 0) && (a `mod` b =? 0)) = true)));
    destruct (Z.BoolSpec_divide b a); congruence.
Defined.

#[global] Instance legal_dec o a b : Decision (legal o a b).
Proof. destruct o; simpl; apply _. Defined.

(** The moves of one operator: one for every generated pair that meets
    the operator's condition, in the order of the pairs. *)
Definition moves_for (o : op) (pairs : list (Z * Z)) : list move_tuple :=
  pair o <$> filter (λ ab, legal o ab.1 ab.2) pairs.

(** The move set in the specification's words: all adds, then the legal
    subtracts, then the legal multiplies, then the legal divides. *)
Definition legalmoves_spec (p : puzzle) : list move_tuple :=
  moves_for Add (_sourcecombos p) ++ moves_for Sub (_sourcecombos p)
  ++ moves_for Mul (_sourcecombos p) ++ moves_for FloorDiv (_sourcecombos p).

(** ** The object store

    A [DigitsPuzzle] instance is an object whose attribute [sources]
    refers to a list object; [list.remove] mutates that list object in
    place, and [sorted] and the constructor allocate new ones. *)
Module Heap.

Definition loc : Type := positive.

(** The attributes of an instance; [o_sources] is a reference. *)
Record object : Type := Object {
  o_target : Z;
  o_forced : value;
  o_sources : loc;
}.

Record heap : Type := Store {
  objects : gmap loc object;
  lists : gmap loc (list Z);
}.

(** A computation over the store.  The store reached is kept when an
    exception is raised; [None] is a read through a reference that was
    never allocated, which no run of the program performs. *)
Definition H (A : Type) : Type := heap → option (res A * heap).

Definition ret {A} (a : A) : H A := λ h, Some (Ret a, h).
Definition raise {A} (e : exn) : H A := λ h, Some (Raise e, h).
Definition bind {A B} (c : H A) (k : A → H B) : H B := λ h,
  match c h with
  | None => None
  | Some (Ret a, h') => k a h'
  | Some (Raise e, h') => Some (Raise e, h')
  end.

#[export] Instance H_bind : MBind H := λ A B k c, bind c k.
#[export] Instance H_ret : MRet H := @ret.

Definition new_list (xs : list Z) : H loc := λ h,
  let l := fresh (dom (lists h)) in
  Some (Ret l, Store (objects h) (<[l := xs]> (lists h))).

Definition new_object (o : object) : H loc := λ h,
  let l := fresh (dom (objects h)) in
  Some (Ret l, Store (<[l := o]> (objects h)) (lists h)).

Definition get_object (self : loc) : H object := λ h,
  (λ o, (Ret o, h)) <$> objects h !! self.

Definition get_list (l : loc) : H (list Z) := λ h,
  (λ xs, (Ret xs, h)) <$> lists h !! l.

Definition set_object (self : loc) (o : object) : H () := λ h,
  (λ _, (Ret (), Store (<[self := o]> (objects h)) (lists h)))
    <$> objects h !! self.

Definition set_list (l : loc) (xs : list Z) : H () := λ h,
  (λ _, (Ret (), Store (objects h) (<[l := xs]> (lists h))))
    <$> lists h !! l.

Definition lift {A} (r : res A) : H A :=
  match r with
  | Ret a => ret a
  | Raise e => raise e
  end.

(** [DigitsPuzzle(target, *sources, forced_operand=forced)]. *)
Definition init (tgt : Z) (srcs : list Z) (forced : value) : H loc :=
  l ← new_list (sorted_reverse srcs);
  self ← new_object (Object tgt forced l);
  o ← get_object self;
  xs ← get_list (o_sources o);
  smallest ← lift (py_last xs);
  if decide (smallest ≤ 0) then raise ValueError else ret self.

(** [self.chainmode(v)]. *)
Definition chainmode (v : bool) (self : loc) : H () :=
  o ← get_object self;
  set_object self
    (Object (o_target o) (if v then VChain else VNone) (o_sources o)).

(** [self.clone()]; [*self.sources] reads the list as it is now. *)
Definition clone (self : loc) : H loc :=
  o ← get_object self;
  xs ← get_list (o_sources o);
  init (o_target o) xs (o_forced o).

(** [self.sources.remove(x)]: in place, on the list object. *)
Definition sources_remove (self : loc) (x : Z) : H () :=
  o ← get_object self;
  xs ← get_list (o_sources o);
  match py_remove x xs with
  | None => raise ValueError
  | Some xs' => set_list (o_sources o) xs'
  end.

(** [self.move(m)]. *)
Definition move (self : loc) (m : move_tuple) : H loc :=
  let '(o, (a, b)) := m in
  sources_remove self a;;
  sources_remove self b;;
  rslt ← lift (apply_op o a b);
  if decide (rslt ≤ 0) then raise ValueError
  else
    (ob ← get_object self;
     if truthy (o_forced ob)
     then set_object self (Object (o_target ob) (VInt rslt) (o_sources ob))
     else ret ());;
    ob ← get_object self;
    xs ← get_list (o_sources ob);
    l ← new_list (sorted_reverse (xs ++ [rslt]));
    set_object self (Object (o_target ob) (o_forced ob) l);;
    ret self.

(** [self.copy_and_move(m)]. *)
Definition copy_and_move (self : loc) (m : move_tuple) : H loc :=
  c ← clone self;
  move c m.

(** The state of the instance at [self], as the methods of the record
    model see it. *)
Definition puzzle_at (h : heap) (self : loc) : option puzzle :=
  o ← objects h !! self;
  xs ← lists h !! o_sources o;
  Some (Puzzle (o_target o) xs (o_forced o)).

(** What a caller holding a reference can do to an instance later. *)
Inductive mutation : Type :=
  | DoMove (m : move_tuple)
  | DoChainmode (v : bool).

(** A sequence of later calls on [c]; a caller may catch what a call
    raises and go on, so the outcome of each call is dropped. *)
Fixpoint mutate (c : loc) (ms : list mutation) (h : heap) : option heap :=
  match ms with
  | [] => Some h
  | mu :: ms' =>
      match mu with
      | DoMove m => snd <$> move c m h
      | DoChainmode v => snd <$> chainmode v c h
      end ≫= mutate c ms'
  end.

(** Two instances that are different objects and whose [sources] are
    different list objects. *)
Definition separate (h : heap) (self c : loc) : Prop :=
  self ≠ c ∧
  ∃ o oc, objects h !! self = Some o ∧ objects h !! c = Some oc ∧
    o_sources o ≠ o_sources oc ∧
    is_Some (lists h !! o_sources o) ∧
    is_Some (lists h !! o_sources oc).

End Heap.

(** ** PuzzleSolver *)

(** The methods [_solve] requires of a puzzle: [legalmoves()],
    [copy_and_move(m)], [canonicalstate()] and the property [endstate].
    Canonical states are hashable and compared for equality. *)
Class PuzzleState (P M C : Type) `{Countable C} : Type := {
  ps_legalmoves : P → list M;
  ps_copy_and_move : P → M → res P;
  ps_canonicalstate : P → C;
  ps_endstate : P → bool;
}.

(** [DigitsPuzzle] as the solver sees it.  The queue of the solver holds
    references to instances; [copy_and_move] allocates the instance it
    returns and changes nothing that exists (see [copy_and_move_spec]),
    so an instance keeps the state it was enqueued with and the solver is
    modelled on states. *)
#[global] Instance DigitsPuzzle : PuzzleState puzzle move_tuple (list value) := {
  ps_legalmoves := legalmoves;
  ps_copy_and_move := copy_and_move;
  ps_canonicalstate := canonicalstate;
  ps_endstate := endstate;
}.

Section solver.
Context {P M C : Type} `{PuzzleState P M C}.

(** An item of the state queue: [(puzzle, trail)]. *)
Definition entry : Type := P * list M.

(** The generator [_solve(puzzle)] between two steps: its locals
    [statetrail] and [q], the entry [(z, movetrail)] being expanded with
    the moves [z.legalmoves()] has still to produce ([None] outside the
    inner loop), and the two statistics attributes. *)
Record generator : Type := Generator {
  statetrail : gset C;
  q : list entry;
  expanding : option (entry * list M);
  _maxq : nat;
  _iterations : nat;
}.

(** The generator when it reaches the outer loop for the first time. *)
Definition _solve (puzzle : P) : generator :=
  Generator {[ ps_canonicalstate puzzle ]} [(puzzle, [])] None 0 0.

(** What one step of the generator does. *)
Inductive event : Type :=
  | Dequeued (e : entry)
  | Discarded (m : M) (z2 : P)
  | Yielded (sol : list M) (z2 : P)
  | Enqueued (e : entry)
  | Exhausted
  | Failed (e : exn).

(** One step: a turn of the inner loop when a move of the entry being
    expanded is left, the start of a turn of the outer loop otherwise. *)
Definition step (g : generator) : event * generator :=
  match expanding g with
  | Some ((z, movetrail), move :: moves) =>
      match ps_copy_and_move z move with
      | Raise e => (Failed e, g)
      | Ret z2 =>
          let z2state := ps_canonicalstate z2 in
          let g' := Generator (statetrail g) (q g)
                      (Some ((z, movetrail), moves))
                      (_maxq g) (_iterations g) in
          if decide (z2state ∈ statetrail g) then (Discarded move z2, g')
          else if ps_endstate z2 then (Yielded (movetrail ++ [move]) z2, g')
          else
            let q' := q g ++ [(z2, movetrail ++ [move])] in
            (Enqueued (z2, movetrail ++ [move]),
             Generator ({[ z2state ]} ∪ statetrail g) q'
               (Some ((z, movetrail), moves))
               (_maxq g `max` length q')%nat (_iterations g))
      end
  | _ =>
      match q g with
      | [] =>
          (Exhausted,
           Generator (statetrail g) [] None (_maxq g) (S (_iterations g)))
      | (z, movetrail) :: q' =>
          (Dequeued (z, movetrail),
           Generator (statetrail g) q'
             (Some ((z, movetrail), ps_legalmoves z))
             (_maxq g) (S (_iterations g)))
      end
  end.

(** How a call [next(g)] ends. *)
Inductive next_result : Type :=
  | Next (sol : list M) (z2 : P)
  | StopIteration
  | Raised (e : exn).

(** [next(g)]: steps up to the next [yield], the [return] or an
    exception; [None] when [fuel] steps were not enough. *)
Fixpoint next (fuel : nat) (g : generator) : option (next_result * generator) :=
  match fuel with
  | O => None
  | S fuel' =>
      let '(ev, g') := step g in
      match ev with
      | Yielded sol z2 => Some (Next sol z2, g')
      | Exhausted => Some (StopIteration, g')
      | Failed e => Some (Raised e, g')
      | _ => next fuel' g'
      end
  end.

(** The events of the first [k] steps. *)
Fixpoint trace (k : nat) (g : generator) : list event :=
  match k with
  | O => []
  | S k' =>
      let '(ev, g') := step g in
      match ev with
      | Exhausted | Failed _ => [ev]
      | _ => ev :: trace k' g'
      end
  end.

(** The generator after [k] steps. *)
Fixpoint run (k : nat) (g : generator) : generator :=
  match k with
  | O => g
  | S k' => run k' (step g).2
  end.

(** The entries that were appended to [q]. *)
Definition enqueued (evs : list event) : list entry :=
  omap (λ ev, match ev with Enqueued e => Some e | _ => None end) evs.

(** The solutions that were yielded, each with the state it ends in. *)
Definition yielded (evs : list event) : list (list M * P) :=
  omap (λ ev, match ev with Yielded sol z2 => Some (sol, z2) | _ => None end) evs.

(** What [solve] returns: the one solution when [n == 1] and there is
    one, the list [solutions] otherwise. *)
Inductive solved : Type :=
  | Solution (sol : list M)
  | Solutions (sols : list (list M)).

(** The loop [for i in range(n)] of [solve], [todo] turns from its end. *)
Fixpoint solve_loop (fuel : nat) (n : Z) (todo : nat) (g : generator)
    (solutions : list (list M)) : option (res solved * generator) :=
  match todo with
  | O => Some (Ret (Solutions solutions), g)
  | S todo' =>
      match next fuel g with
      | None => None
      | Some (Next sol _, g') =>
          if decide (n = 1) then Some (Ret (Solution sol), g')
          else solve_loop fuel n todo' g' (solutions ++ [sol])
      | Some (StopIteration, g') => Some (Ret (Solutions solutions), g')
      | Some (Raised e, g') => Some (Raise e, g')
      end
  end.

(** [solve(puzzle, n)], with the generator it leaves behind; [fuel]
    bounds the steps of each [next]. *)
Definition solve_run (fuel : nat) (puzzle : P) (n : Z)
    : option (res solved * generator) :=
  solve_loop fuel n (Z.to_nat n) (_solve puzzle) [].

Definition solve (fuel : nat) (puzzle : P) (n : Z) : option (res solved) :=
  fst <$> solve_run fuel puzzle n.

(** The property [stats], read after [solve]. *)
Definition stats (g : generator) : nat * nat := (_maxq g, _iterations g).

(** [path p ms p']: applying the moves [ms] one after the other, each
    a legal move of the state it is applied to, leads from [p] to [p']. *)
Inductive path : P → list M → P → Prop :=
  | path_nil p : path p [] p
  | path_cons p m p1 ms p' :
      m ∈ ps_legalmoves p →
      ps_copy_and_move p m = Ret p1 →
      path p1 ms p' →
      path p (m :: ms) p'.

(** The steps of [step], one rule for each way through the loop body. *)
Inductive steps_to (g : generator) : event → generator → Prop :=
  | steps_failed z movetrail move moves e :
      expanding g = Some ((z, movetrail), move :: moves) →
      ps_copy_and_move z move = Raise e →
      steps_to g (Failed e) g
  | steps_discarded z movetrail move moves z2 :
      expanding g = Some ((z, movetrail), move :: moves) →
      ps_copy_and_move z move = Ret z2 →
      ps_canonicalstate z2 ∈ statetrail g →
      steps_to g (Discarded move z2)
        (Generator (statetrail g) (q g) (Some ((z, movetrail), moves))
           (_maxq g) (_iterations g))
  | steps_yielded z movetrail move moves z2 :
      expanding g = Some ((z, movetrail), move :: moves) →
      ps_copy_and_move z move = Ret z2 →
      ps_canonicalstate z2 ∉ statetrail g →
      ps_endstate z2 = true →
      steps_to g (Yielded (movetrail ++ [move]) z2)
        (Generator (statetrail g) (q g) (Some ((z, movetrail), moves))
           (_maxq g) (_iterations g))
  | steps_enqueued z movetrail move moves z2 :
      expanding g = Some ((z, movetrail), move :: moves) →
      ps_copy_and_move z move = Ret z2 →
      ps_canonicalstate z2 ∉ statetrail g →
      ps_endstate z2 = false →
      steps_to g (Enqueued (z2, movetrail ++ [move]))
        (Generator ({[ ps_canonicalstate z2 ]} ∪ statetrail g)
           (q g ++ [(z2, movetrail ++ [move])])
           (Some ((z, movetrail), moves))
           (_maxq g `max` length (q g ++ [(z2, movetrail ++ [move])]))%nat
           (_iterations g))
  | steps_exhausted :
      (expanding g = None ∨ ∃ e, expanding g = Some (e, [])) →
      q g = [] →
      steps_to g Exhausted
        (Generator (statetrail g) [] None (_maxq g) (S (_iterations g)))
  | steps_dequeued z movetrail q' :
      (expanding g = None ∨ ∃ e, expanding g = Some (e, [])) →
      q g = (z, movetrail) :: q' →
      steps_to g (Dequeued (z, movetrail))
        (Generator (statetrail g) q'
           (Some ((z, movetrail), ps_legalmoves z))
           (_maxq g) (S (_iterations g))).

End solver.

(** ** Measures and invariants of a search

    What the proofs about the solver are stated with, for a puzzle whose
    states satisfy an invariant [Inv] and carry a rank, searched from the
    seed [p0]. *)
Section search_definitions.
Context {P M C : Type} `{PuzzleState P M C}.
Variables (Inv : P → Prop) (rank : P → nat) (p0 : P).

Implicit Types (g : @generator P M C _ _).

(** Every state the generator holds satisfies the invariant, and the
    moves still to try are legal moves of the state being expanded. *)
Definition gen_ok g : Prop :=
  Forall (λ e : entry, Inv e.1) (q g) ∧
  match expanding g with
  | Some ((z, _), moves) => Inv z ∧ moves ⊆ ps_legalmoves z
  | None => True
  end.

(** The number of steps the search below a state can take, counted on
    the tree of move sequences; [n] bounds the depth. *)
Fixpoint weight (n : nat) (p : P) : nat :=
  match n with
  | O => 1
  | S n' =>
      S (sum_list ((λ m, S match ps_copy_and_move p m with
                           | Ret p' => weight n' p'
                           | Raise _ => 0
                           end) <$> ps_legalmoves p))
  end.

(** The steps the moves [moves] of [z] still stand for. *)
Definition pending (z : P) (moves : list M) : nat :=
  sum_list ((λ m, S match ps_copy_and_move z m with
                    | Ret p' => weight (rank p') p'
                    | Raise _ => 0
                    end) <$> moves).

(** The steps the generator can still take. *)
Definition potential g : nat :=
  (sum_list ((λ e : entry, weight (rank e.1) e.1) <$> q g)
   + match expanding g with
     | Some ((z, _), moves) => pending z moves
     | None => 0
     end)%nat.

(** The entries still to expand: the one being expanded, then [q]. *)
Definition frontier g : list entry :=
  match expanding g with Some (e, _) => [e] | None => [] end ++ q g.

(** The moves [ms] of [s] all lead to states that are in the visited
    set [V] and are not end states. *)
Definition expanded_in (V : gset C) (s : P) (ms : list M) : Prop :=
  ∀ m z2, m ∈ ms → ps_copy_and_move s m = Ret z2 →
    ps_canonicalstate z2 ∈ V ∧ ps_endstate z2 = false.

(** The invariant of the generator as long as nothing was yielded. *)
Record searching g : Prop := Searching {
  s_seed : ps_canonicalstate p0 ∈ statetrail g;
  s_entries : ∀ z trail, (z, trail) ∈ frontier g →
    path p0 trail z ∧ ps_canonicalstate z ∈ statetrail g;
  s_done : ∀ z trail moves, expanding g = Some ((z, trail), moves) →
    ∃ done, ps_legalmoves z = done ++ moves ∧
      expanded_in (statetrail g) z done;
  s_visited : ∀ s ms, path p0 ms s → ps_canonicalstate s ∈ statetrail g →
    ms ≠ [] → ps_endstate s = false;
  s_closed : ∀ s ms, path p0 ms s → ps_canonicalstate s ∈ statetrail g →
    s ∈ (fst <$> frontier g) ∨ expanded_in (statetrail g) s (ps_legalmoves s);
  s_order :
    StronglySorted (λ e1 e2 : entry, (rank e2.1 ≤ rank e1.1)%nat) (frontier g);
  s_level : ∀ e1 e2 : entry, e1 ∈ frontier g → e2 ∈ frontier g →
    (rank e1.1 ≤ S (rank e2.1))%nat;
}.

End search_definitions.

(** The rank of a state: the number of sources. *)
Definition nsources (p : puzzle) : nat := length (sources p).

(** The states of one search: valid, with the target of the seed. *)
Definition valid_for (tgt : Z) (p : puzzle) : Prop :=
  valid p ∧ target p = tgt.

(** Fuel that lets [next] run a whole search from [p]. *)
Definition search_fuel (p : puzzle) : nat :=
  S (weight (nsources p) p).

(** * The scenarios of the test suite *)

(** The scenarios of [nytdigitstests.py]. *)
Example test1 :
  init 10 [3; 7] VNone = Ret (Puzzle 10 [7; 3] VNone) ∧
  legalmoves (Puzzle 10 [7; 3] VNone)
  = [(Add, (7, 3)); (Sub, (7, 3)); (Mul, (7, 3))].
Proof. split; vm_compute; reflexivity. Qed.

Example test4 :
  legalmoves (Puzzle 10 [14; 3; 2] VNone)
  = [(Add, (14, 3)); (Add, (14, 2)); (Add, (3, 2));
     (Sub, (14, 3)); (Sub, (14, 2)); (Sub, (3, 2));
     (Mul, (14, 3)); (Mul, (14, 2)); (Mul, (3, 2));
     (FloorDiv, (14, 2))].
Proof. vm_compute; reflexivity. Qed.

Example test5 :
  let d := Puzzle 10 [14; 13; 3; 2] VChain in
  init 10 [3; 14; 2; 13] VChain = Ret d ∧
  res_bind (init 10 [3; 14; 2; 13] VNone) (λ d2, Ret (chainmode true d2))
  = Ret d ∧
  length (legalmoves d) = 19%nat ∧
  move (FloorDiv, (14, 2)) d = (Puzzle 10 [13; 7; 3] (VInt 7), Ret ()) ∧
  legalmoves (Puzzle 10 [13; 7; 3] (VInt 7))
  = [(Add, (7, 13)); (Add, (7, 3)); (Sub, (7, 3)); (Mul, (7, 13)); (Mul, (7, 3))].
Proof. repeat split; vm_compute; reflexivity. Qed.

Example test6 :
  let d := Puzzle 10 [14; 7; 3; 2] VChain in
  length (legalmoves d) = 20%nat ∧
  move (FloorDiv, (14, 2)) d = (Puzzle 10 [7; 7; 3] (VInt 7), Ret ()) ∧
  legalmoves (Puzzle 10 [7; 7; 3] (VInt 7))
  = [(Add, (7, 7)); (Add, (7, 3)); (Sub, (7, 3)); (Mul, (7, 7)); (Mul, (7, 3));
     (FloorDiv, (7, 7))].
Proof. repeat split; vm_compute; reflexivity. Qed.

Example test7 :
  let d := Puzzle 10 [14; 13; 3; 2] VNone in
  endstate d = false ∧
  endstate (move (FloorDiv, (14, 2)) d).1 = false ∧
  endstate (move (Add, (7, 3)) (move (FloorDiv, (14, 2)) d).1).1 = true.
Proof. repeat split; vm_compute; reflexivity. Qed.

Example test8 :
  let d := Puzzle 10 [14; 13; 13; 3; 2] VNone in
  (move (Add, (16, 17)) d).2 = Raise ValueError ∧
  (move (Sub, (13, 13)) d).2 = Raise ValueError ∧
  (move (Sub, (13, 14)) d).2 = Raise ValueError.
Proof. repeat split; vm_compute; reflexivity. Qed.

Example solve_3_7 :
  solve 100 (Puzzle 10 [7; 3] VNone) 1 = Some (Ret (Solution [(Add, (7, 3))])).
Proof. vm_compute; reflexivity. Qed.

Example solve_test7 :
  solve 2000 (Puzzle 10 [14; 13; 3; 2] VChain) 1
  = Some (Ret (Solution [(Sub, (13, 3))])).
Proof. vm_compute; reflexivity. Qed.

(** * Properties of the list primitives *)

Section list_facts.

#[global] Instance Zge_rel_total : Total Zge_rel.
Proof. intros x y. unfold Zge_rel. lia. Qed.

#[global] Instance Zge_rel_trans : Transitive Zge_rel.
Proof. intros x y z. unfold Zge_rel. lia. Qed.

#[global] Instance Zge_rel_antisymm : AntiSymm (=) Zge_rel.
Proof. intros x y. unfold Zge_rel. lia. Qed.

Lemma sorted_reverse_perm xs : sorted_reverse xs ≡ₚ xs.
Proof. apply merge_sort_Permutation. Qed.

Lemma sorted_reverse_sorted xs : Sorted Zge_rel (sorted_reverse xs).
Proof. apply Sorted_merge_sort, _. Qed.

(** Sorting a list that is already in descending order changes nothing. *)
Lemma sorted_reverse_id xs : Sorted Zge_rel xs → sorted_reverse xs = xs.
Proof.
  intros Hs. apply (Sorted_unique Zge_rel);
    auto using sorted_reverse_sorted, sorted_reverse_perm.
Qed.

(** Two descending lists with the same elements are the same list. *)
Lemma sorted_reverse_eq_perm xs ys :
  sorted_reverse xs = sorted_reverse ys ↔ xs ≡ₚ ys.
Proof.
  split.
  - intros Heq. rewrite <- (sorted_reverse_perm xs), Heq.
    apply sorted_reverse_perm.
  - intros Hp. apply (Sorted_unique Zge_rel); auto using sorted_reverse_sorted.
    by rewrite !sorted_reverse_perm.
Qed.

Lemma sorted_reverse_nil xs : sorted_reverse xs = [] ↔ xs = [].
Proof.
  split; [|by intros ->].
  intros Heq. apply Permutation_nil_r. rewrite <- Heq.
  symmetry. apply sorted_reverse_perm.
Qed.

(** The last element of a descending list is its smallest. *)
Lemma sorted_last_least xs x :
  Sorted Zge_rel xs → last xs = Some x → Forall (λ y, x ≤ y) xs.
Proof.
  intros Hs%Sorted_StronglySorted; [|apply _].
  intros [l' ->]%last_Some.
  apply StronglySorted_app in Hs as (Hle & _ & _).
  apply Forall_app. split; [|by repeat constructor].
  apply Forall_forall. intros y Hy.
  apply Hle; [done|]. by apply list_elem_of_singleton.
Qed.

(** [xs.remove(x)] succeeds exactly when [x] occurs in [xs], and takes
    one occurrence away. *)
Lemma py_remove_Some x xs ys :
  py_remove x xs = Some ys → xs ≡ₚ x :: ys.
Proof.
  revert ys. induction xs as [|y xs IH]; intros ys; simpl; [done|].
  case_decide as E.
  - intros [= <-]. by subst.
  - destruct (py_remove x xs) as [zs|]; simpl; [|done].
    intros [= <-]. rewrite (IH zs eq_refl). apply Permutation_swap.
Qed.

Lemma py_remove_is_Some x xs : x ∈ xs ↔ is_Some (py_remove x xs).
Proof.
  induction xs as [|y xs IH]; simpl.
  - split; [by intros ?%not_elem_of_nil|by intros [? ?]].
  - case_decide as E.
    + subst. split; [by eauto|intros _; by left].
    + rewrite elem_of_cons, IH, fmap_is_Some. intuition congruence.
Qed.

Lemma py_remove_split x xs ys :
  py_remove x xs = Some ys ↔
  ∃ l1 l2, xs = l1 ++ x :: l2 ∧ ys = l1 ++ l2 ∧ x ∉ l1.
Proof.
  revert ys. induction xs as [|y xs IH]; intros ys; simpl.
  - split; [done|]. intros (l1 & l2 & Hx & _). by destruct l1.
  - case_decide as E.
    + subst y. split.
      * intros [= <-]. exists [], xs. split_and!; [done..|].
        apply not_elem_of_nil.
      * intros (l1 & l2 & Hx & -> & Hn). destruct l1 as [|z l1].
        -- by injection Hx as ->.
        -- injection Hx as -> _. exfalso. apply Hn. by left.
    + split.
      * destruct (py_remove x xs) as [zs|]; simpl; [|done].
        intros [= <-]. destruct (proj1 (IH zs) eq_refl) as (l1 & l2 & -> & -> & Hn).
        exists (y :: l1), l2. split_and!; [done..|].
        rewrite not_elem_of_cons. done.
      * intros (l1 & l2 & Hx & -> & Hn). destruct l1 as [|z l1].
        -- injection Hx as -> _. done.
        -- injection Hx as -> ->. apply not_elem_of_cons in Hn as [_ Hn].
           rewrite (proj2 (IH (l1 ++ l2))); [done|]. eauto.
Qed.

Lemma py_remove_length x xs ys :
  py_remove x xs = Some ys → length xs = S (length ys).
Proof. intros Hp%py_remove_Some. by rewrite Hp. Qed.

Lemma py_remove_sorted x xs ys :
  py_remove x xs = Some ys → Sorted Zge_rel xs → Sorted Zge_rel ys.
Proof.
  intros (l1 & l2 & -> & -> & _)%py_remove_split Hs.
  apply Sorted_StronglySorted in Hs; [|apply _].
  apply StronglySorted_Sorted.
  apply StronglySorted_app in Hs as (Hle & H1 & H2).
  apply StronglySorted_cons in H2 as [_ H2].
  apply StronglySorted_app. split_and!; [|done..].
  intros y1 y2 Hy1 Hy2. apply Hle; [done|]. by right.
Qed.


(** [takewhile] splits its input at the first item failing [pred]. *)
Lemma takewhile_split pred g taken rest :
  takewhile pred g = (taken, rest) →
  Forall (λ x, pred x = true) taken ∧
  (g = taken ∧ rest = [] ∨ ∃ x, pred x = false ∧ g = taken ++ x :: rest).
Proof.
  revert taken rest. induction g as [|x g IH]; intros taken rest; simpl.
  - intros [= <- <-]. split; [constructor|by left].
  - destruct (pred x) eqn:Ex.
    + destruct (takewhile pred g) as [t r]. intros [= <- <-].
      destruct (IH t r eq_refl) as [Ht Hg]. split; [by constructor|].
      destruct Hg as [[-> ->]|(y & Ey & ->)]; [by left|right; eauto].
    + intros [= <- <-]. split; [constructor|]. right. eauto.
Qed.

(** The forced branch's pool is [sources] with the first occurrence of
    the forced value taken out, as [list.remove] would. *)
Lemma forced_pool_remove f srcs :
  f ∈ srcs → py_remove f srcs = Some (forced_pool f srcs).
Proof.
  unfold forced_pool. induction srcs as [|y srcs IH]; simpl.
  - by intros ?%not_elem_of_nil.
  - intros Hin. case_bool_decide as E; simpl.
    + subst. by rewrite decide_True.
    + rewrite decide_False by done.
      apply elem_of_cons in Hin as [->|Hin]; [done|].
      specialize (IH Hin).
      destruct (takewhile _ srcs) as [t r]. by rewrite IH.
Qed.

Lemma forced_pool_absent f srcs : f ∉ srcs → forced_pool f srcs = srcs.
Proof.
  unfold forced_pool. induction srcs as [|y srcs IH]; simpl; [done|].
  intros [Hne Hn]%not_elem_of_cons.
  rewrite bool_decide_false by done. simpl.
  specialize (IH Hn). destruct (takewhile _ srcs) as [t r].
  simpl in *. by rewrite IH.
Qed.

(** The pairs of [combinations2] are two distinct positions of the
    list, the earlier one first. *)
Lemma combinations2_elem_of a b xs :
  (a, b) ∈ combinations2 xs ↔
  ∃ l1 l2 l3, xs = l1 ++ a :: l2 ++ b :: l3.
Proof.
  induction xs as [|x xs IH]; simpl.
  - split; [by intros ?%not_elem_of_nil|].
    intros (l1 & l2 & l3 & Hx). by destruct l1.
  - rewrite elem_of_app, list_elem_of_fmap, IH. split.
    + intros [(b' & [= -> ->] & Hb)|(l1 & l2 & l3 & ->)].
      * apply list_elem_of_split in Hb as (l2 & l3 & ->).
        by exists [], l2, l3.
      * by exists (x :: l1), l2, l3.
    + intros (l1 & l2 & l3 & Hx). destruct l1 as [|z l1].
      * injection Hx as -> ->. left. exists b. split; [done|].
        apply elem_of_app. right. by left.
      * injection Hx as -> ->. right. eauto.
Qed.

Lemma combinations2_sorted a b xs :
  Sorted Zge_rel xs → (a, b) ∈ combinations2 xs → b ≤ a.
Proof.
  intros Hs%Sorted_StronglySorted (l1 & l2 & l3 & ->)%combinations2_elem_of;
    [|apply _].
  apply StronglySorted_app in Hs as (_ & _ & Hs).
  apply StronglySorted_cons in Hs as [Hall _].
  rewrite Forall_forall in Hall. apply Hall.
  apply elem_of_app. right. by left.
Qed.

Lemma combinations2_length xs :
  (length (combinations2 xs) * 2 = length xs * (length xs - 1))%nat.
Proof.
  induction xs as [|x xs IH]; simpl; [done|].
  rewrite length_app, length_fmap. nia.
Qed.

End list_facts.

(** * Properties of DigitsPuzzle *)

Lemma init_Ret tgt srcs forced p :
  init tgt srcs forced = Ret p ↔
  srcs ≠ [] ∧ Forall (λ x, 0 < x) srcs ∧
  p = Puzzle tgt (sorted_reverse srcs) forced.
Proof.
  unfold init, py_last. simpl.
  destruct (last (sorted_reverse srcs)) as [x|] eqn:E; simpl.
  - assert (srcs ≠ []) as Hne.
    { intros ->. vm_compute in E. done. }
    case_decide as Hx.
    + split; [done|]. intros (_ & Hall & _). exfalso.
      rewrite <- sorted_reverse_perm in Hall.
      apply last_Some in E as [l' E]. rewrite E in Hall.
      apply Forall_app in Hall as [_ Hall]. apply Forall_inv in Hall.
      simpl in Hall. lia.
    + split.
      * intros [= <-]. split_and!; [done| |done].
        rewrite <- sorted_reverse_perm.
        eapply Forall_impl; [apply (sorted_last_least _ x);
          [apply sorted_reverse_sorted|done]|].
        simpl. lia.
      * by intros (_ & _ & ->).
  - split; [done|]. intros (Hne & _). exfalso.
    apply last_None, (proj1 (sorted_reverse_nil _)) in E. done.
Qed.

Lemma init_valid tgt srcs forced p : init tgt srcs forced = Ret p → valid p.
Proof.
  intros (Hne & Hpos & ->)%init_Ret. split; simpl.
  - by rewrite sorted_reverse_nil.
  - apply sorted_reverse_sorted.
  - unfold positive_sources. simpl. by rewrite sorted_reverse_perm.
Qed.

(** A valid state is what the constructor builds from its own fields, so
    [clone] returns an equal state. *)
Lemma clone_valid p : valid p → clone p = Ret p.
Proof.
  intros [Hne Hs Hpos]. unfold clone. apply init_Ret. split_and!; [done..|].
  rewrite sorted_reverse_id by done. by destruct p.
Qed.

Lemma clone_Ret p c : clone p = Ret c → valid c ∧ target c = target p
  ∧ sources c ≡ₚ sources p ∧ forced_operand c = forced_operand p.
Proof.
  intros Hc. split; [by eapply init_valid|].
  apply init_Ret in Hc as (_ & _ & ->). simpl.
  split_and!; [done| |done]. apply sorted_reverse_perm.
Qed.

Lemma valid_iff_constructed p :
  valid p ↔ ∃ tgt srcs forced, init tgt srcs forced = Ret p.
Proof.
  split.
  - intros Hv. exists (target p), (sources p), (forced_operand p).
    by apply clone_valid.
  - intros (tgt & srcs & forced & Hi). by eapply init_valid.
Qed.

Lemma init_empty tgt forced : init tgt [] forced = Raise IndexError.
Proof. reflexivity. Qed.

Lemma init_nonpositive tgt srcs forced x :
  x ∈ srcs → x ≤ 0 → init tgt srcs forced = Raise ValueError.
Proof.
  intros Hin Hx. unfold init, py_last. simpl.
  destruct (last (sorted_reverse srcs)) as [y|] eqn:E; simpl.
  - rewrite decide_True; [done|].
    apply sorted_last_least in E; [|apply sorted_reverse_sorted].
    rewrite Forall_forall in E. etrans; [apply (E x)|done].
    by rewrite sorted_reverse_perm.
  - apply last_None, (proj1 (sorted_reverse_nil _)) in E. subst.
    by apply not_elem_of_nil in Hin.
Qed.

(** ** [move] *)

Lemma remove_operands_Ret a b srcs s2 :
  remove_operands a b srcs = (s2, Ret ()) ↔
  ∃ s1, py_remove a srcs = Some s1 ∧ py_remove b s1 = Some s2.
Proof.
  unfold remove_operands.
  destruct (py_remove a srcs) as [s1|]; [|naive_solver].
  destruct (py_remove b s1) as [s2'|] eqn:E; naive_solver.
Qed.

Lemma remove_operands_sub a b srcs :
  (remove_operands a b srcs).1 ⊆+ srcs.
Proof.
  unfold remove_operands.
  destruct (py_remove a srcs) as [s1|] eqn:E1; simpl; [|done].
  apply py_remove_Some in E1.
  destruct (py_remove b s1) as [s2|] eqn:E2; simpl.
  - apply py_remove_Some in E2. rewrite E1, E2.
    do 2 apply submseteq_cons. done.
  - rewrite E1. by apply submseteq_cons.
Qed.

Lemma remove_operands_sorted a b srcs :
  Sorted Zge_rel srcs → Sorted Zge_rel (remove_operands a b srcs).1.
Proof.
  unfold remove_operands. intros Hs.
  destruct (py_remove a srcs) as [s1|] eqn:E1; simpl; [|done].
  apply py_remove_sorted in E1; [|done].
  destruct (py_remove b s1) as [s2|] eqn:E2; simpl; [|done].
  by apply py_remove_sorted in E2.
Qed.

(** The shape of [move]'s result, case by case. *)
Lemma move_unfold o a b p :
  move (o, (a, b)) p =
  let s2r := remove_operands a b (sources p) in
  let self1 := Puzzle (target p) s2r.1 (forced_operand p) in
  match s2r.2 with
  | Raise e => (self1, Raise e)
  | Ret _ =>
      match apply_op o a b with
      | Raise e => (self1, Raise e)
      | Ret rslt =>
          if decide (rslt ≤ 0) then (self1, Raise ValueError)
          else (Puzzle (target p) (sorted_reverse (s2r.1 ++ [rslt]))
                  (if truthy (forced_operand p) then VInt rslt
                   else forced_operand p), Ret ())
      end
  end.
Proof. unfold move. by destruct (remove_operands a b (sources p)) as [s2 []]. Qed.

Lemma move_target m p : target (move m p).1 = target p.
Proof.
  destruct m as [o [a b]]. rewrite move_unfold. simpl.
  destruct (remove_operands a b (sources p)).2; [|done].
  destruct (apply_op o a b); [|done]. by case_decide.
Qed.

Lemma move_positive m p :
  positive_sources p → positive_sources (move m p).1.
Proof.
  unfold positive_sources. intros Hpos.
  destruct m as [o [a b]]. rewrite move_unfold. simpl.
  assert (Forall (λ x, 0 < x) (remove_operands a b (sources p)).1) as Hsub.
  { apply Forall_forall. intros x Hx. rewrite Forall_forall in Hpos.
    apply Hpos. eapply elem_of_submseteq; [done|apply remove_operands_sub]. }
  destruct (remove_operands a b (sources p)).2; [|done].
  destruct (apply_op o a b) as [rslt|]; [|done].
  case_decide; [done|]. simpl. rewrite sorted_reverse_perm.
  apply Forall_app. split; [done|]. apply Forall_singleton. lia.
Qed.

Lemma move_sorted m p : sorted_sources p → sorted_sources (move m p).1.
Proof.
  unfold sorted_sources. intros Hs.
  destruct m as [o [a b]]. rewrite move_unfold. simpl.
  pose proof (remove_operands_sorted a b _ Hs) as Hsub.
  destruct (remove_operands a b (sources p)).2; [|done].
  destruct (apply_op o a b) as [rslt|]; [|done].
  case_decide; [done|]. simpl. apply sorted_reverse_sorted.
Qed.

(** A call [move(m)] that returns: both operands were removed, the
    result is positive and was put back, and the forced operand follows. *)
Lemma move_Ret o a b p p' :
  move (o, (a, b)) p = (p', Ret ()) ↔
  ∃ s1 s2 rslt,
    py_remove a (sources p) = Some s1 ∧ py_remove b s1 = Some s2 ∧
    apply_op o a b = Ret rslt ∧ 0 < rslt ∧
    p' = Puzzle (target p) (sorted_reverse (s2 ++ [rslt]))
           (if truthy (forced_operand p) then VInt rslt else forced_operand p).
Proof.
  rewrite move_unfold. simpl.
  destruct (remove_operands a b (sources p)) as [s2 r] eqn:E. simpl. split.
  - destruct r as [[]|]; [|done].
    apply remove_operands_Ret in E as (s1 & E1 & E2).
    destruct (apply_op o a b) as [rslt|]; [|done].
    case_decide; [done|]. intros [= <-].
    exists s1, s2, rslt. split_and!; [done..|lia|done].
  - intros (s1 & s2' & rslt & E1 & E2 & -> & Hpos & ->).
    assert (remove_operands a b (sources p) = (s2', Ret ())) as E'.
    { apply remove_operands_Ret. eauto. }
    rewrite E in E'. injection E' as -> ->.
    by rewrite decide_False by lia.
Qed.

Lemma move_Ret_valid m p p' :
  sorted_sources p → positive_sources p → move m p = (p', Ret ()) → valid p'.
Proof.
  intros Hs Hpos Hm.
  pose proof (move_positive m p Hpos) as Hpos'.
  pose proof (move_sorted m p Hs) as Hs'.
  rewrite Hm in Hpos', Hs'. simpl in *. split; [|done..].
  destruct m as [o [a b]].
  apply move_Ret in Hm as (s1 & s2 & rslt & _ & _ & _ & _ & ->). simpl.
  rewrite sorted_reverse_nil. by destruct s2.
Qed.

Lemma copy_and_move_Ret p m p' :
  copy_and_move p m = Ret p' ↔
  ∃ c, clone p = Ret c ∧ move m c = (p', Ret ()).
Proof.
  unfold copy_and_move. destruct (clone p) as [c|]; simpl.
  - destruct (move m c) as [c' [[]|]] eqn:E; simpl.
    + split; [intros [= <-]; eauto|].
      intros (c0 & [= <-] & Hm). rewrite E in Hm. by injection Hm as ->.
    + split; [done|]. intros (c0 & [= <-] & Hm). by rewrite E in Hm.
  - split; [done|]. by intros (c0 & ? & _).
Qed.

Lemma copy_and_move_valid p m p' :
  copy_and_move p m = Ret p' → valid p' ∧ target p' = target p.
Proof.
  intros (c & Hc & Hm)%copy_and_move_Ret.
  apply clone_Ret in Hc as ([_ Hs Hpos] & Ht & _). split.
  - by eapply move_Ret_valid.
  - pose proof (move_target m c) as Ht'. rewrite Hm in Ht'. simpl in Ht'. congruence.
Qed.

(** Every move shortens [sources] by one. *)
Lemma copy_and_move_length p m p' :
  copy_and_move p m = Ret p' → length (sources p) = S (length (sources p')).
Proof.
  intros (c & Hc & Hm)%copy_and_move_Ret.
  apply clone_Ret in Hc as (_ & _ & Hp & _).
  destruct m as [o [a b]].
  apply move_Ret in Hm as (s1 & s2 & rslt & E1 & E2 & _ & _ & ->). simpl.
  rewrite sorted_reverse_perm, length_app. simpl.
  apply py_remove_length in E1, E2. rewrite <- Hp, E1, E2. lia.
Qed.

(** ** Operand pairs and legal moves *)

Lemma forced_pool_split f srcs :
  f ∈ srcs →
  ∃ l1 l2, srcs = l1 ++ f :: l2 ∧ (f ∉ l1) ∧ forced_pool f srcs = l1 ++ l2.
Proof.
  intros Hin%forced_pool_remove.
  apply py_remove_split in Hin as (l1 & l2 & E1 & E2 & Hn). eauto.
Qed.

(** Both operands of a generated pair can be removed from [sources], one
    after the other. *)
Lemma sourcecombos_removable a b p :
  (a, b) ∈ _sourcecombos p →
  ∃ s1 s2, py_remove a (sources p) = Some s1 ∧ py_remove b s1 = Some s2.
Proof.
  assert (∀ l1 l2 l3, sources p = l1 ++ a :: l2 ++ b :: l3 →
    ∃ s1 s2, py_remove a (sources p) = Some s1 ∧ py_remove b s1 = Some s2)
    as Hcomb.
  { intros l1 l2 l3 E.
    assert (a ∈ sources p) as Ha.
    { rewrite E, elem_of_app. right. by left. }
    apply py_remove_is_Some in Ha as [s1 E1]. exists s1.
    assert (b ∈ s1) as Hb.
    { apply py_remove_Some in E1. rewrite E in E1.
      rewrite <- Permutation_middle in E1. apply Permutation_cons_inv in E1.
      rewrite <- E1, !elem_of_app. right. right. by left. }
    apply py_remove_is_Some in Hb as [s2 E2]. eauto. }
  unfold _sourcecombos.
  destruct (forced_operand p) as [| |f];
    try (intros (l1 & l2 & l3 & E)%combinations2_elem_of; by eauto).
  case_bool_decide as Hf.
  - intros (b' & [= <- ->] & Hb)%list_elem_of_fmap.
    exists (forced_pool a (sources p)).
    apply py_remove_is_Some in Hb as [s2 E2].
    exists s2. split; [by apply forced_pool_remove|done].
  - intros (l1 & l2 & l3 & E)%combinations2_elem_of. eauto.
Qed.

Lemma sourcecombos_in_sources a b p :
  (a, b) ∈ _sourcecombos p → a ∈ sources p ∧ b ∈ sources p.
Proof.
  intros (s1 & s2 & E1 & E2)%sourcecombos_removable.
  apply py_remove_Some in E1, E2. rewrite E1, E2.
  split; [by left|]. right. by left.
Qed.

(** The divisor of [a % b] in [legalmoves] is never zero. *)
Lemma sourcecombos_divisor_pos a b p :
  positive_sources p → (a, b) ∈ _sourcecombos p → 0 < a ∧ 0 < b.
Proof.
  unfold positive_sources. rewrite Forall_forall.
  intros Hpos [Ha Hb]%sourcecombos_in_sources. split; by apply Hpos.
Qed.

(** Without an active forced operand the larger operand comes first. *)
Lemma sourcecombos_ordered a b p :
  sorted_sources p → forced_in_sources p = false →
  (a, b) ∈ _sourcecombos p → b ≤ a.
Proof.
  unfold forced_in_sources, _sourcecombos. intros Hs Hf.
  destruct (forced_operand p); try by apply combinations2_sorted.
  rewrite Hf. by apply combinations2_sorted.
Qed.

Lemma filter_ext_Forall {A} (Q1 Q2 : A → Prop)
    `{∀ x, Decision (Q1 x), ∀ x, Decision (Q2 x)} (l : list A) :
  Forall (λ x, Q1 x ↔ Q2 x) l → filter Q1 l = filter Q2 l.
Proof.
  induction 1 as [|x l Hx _ IH]; [done|].
  rewrite !filter_cons, IH. repeat case_decide; tauto.
Qed.

Lemma legalmoves_eq_spec p :
  positive_sources p → legalmoves p = legalmoves_spec p.
Proof.
  intros Hpos. unfold legalmoves, legalmoves_spec, moves_for.
  set (sc := _sourcecombos p).
  assert (filter (λ ab, legal Add ab.1 ab.2) sc = sc) as ->.
  { induction sc as [|ab l IH]; [done|].
    rewrite filter_cons_True by done. by rewrite IH. }
  assert (filter (λ ab, ab.2 < ab.1) sc
          = filter (λ ab, legal Sub ab.1 ab.2) sc) as ->.
  { apply list_filter_iff. intros [a b]. simpl. lia. }
  assert (filter (λ ab, ab.2 ≠ 1) sc
          = filter (λ ab, legal Mul ab.1 ab.2) sc) as ->.
  { apply list_filter_iff. by intros [a b]. }
  assert (filter (λ ab, ab.1 `mod` ab.2 = 0 ∧ ab.2 ≠ 1) sc
          = filter (λ ab, legal FloorDiv ab.1 ab.2) sc) as ->; [|done].
  apply filter_ext_Forall, Forall_forall. intros [a b] Hab. simpl.
  apply sourcecombos_divisor_pos in Hab as [_ Hb]; [|done].
  rewrite Z.mod_divide by lia. done.
Qed.

Lemma elem_of_legalmoves_spec o a b p :
  (o, (a, b)) ∈ legalmoves_spec p ↔ (a, b) ∈ _sourcecombos p ∧ legal o a b.
Proof.
  assert (∀ o', (o, (a, b)) ∈ moves_for o' (_sourcecombos p) ↔
    o = o' ∧ (a, b) ∈ _sourcecombos p ∧ legal o a b) as Hfor.
  { intros o'. unfold moves_for. rewrite list_elem_of_fmap. split.
    - intros ([a' b'] & [= -> -> ->] & [Hl Hin]%list_elem_of_filter). done.
    - intros (-> & Hin & Hl). exists (a, b). split; [done|].
      by apply list_elem_of_filter. }
  unfold legalmoves_spec. rewrite !elem_of_app, !Hfor.
  destruct o; intuition congruence.
Qed.

(** A legal operator applied to positive operands gives a positive
    result. *)
Lemma legal_result_positive o a b :
  0 < a → 0 < b → legal o a b → ∃ rslt, apply_op o a b = Ret rslt ∧ 0 < rslt.
Proof.
  intros Ha Hb Hl. destruct o; simpl in *.
  - eexists. split; [done|lia].
  - eexists. split; [done|lia].
  - eexists. split; [done|lia].
  - rewrite decide_False by lia. eexists. split; [done|].
    destruct Hl as [[k ->] _]. rewrite Z.div_mul by lia. nia.
Qed.

(** Every move of [legalmoves] applies: [copy_and_move] returns, and
    returns a valid state. *)
Lemma legalmoves_applicable p m :
  valid p → m ∈ legalmoves p →
  ∃ p', move m p = (p', Ret ()) ∧ copy_and_move p m = Ret p' ∧ valid p'.
Proof.
  intros Hv Hm. pose proof Hv as [Hne Hs Hpos].
  rewrite legalmoves_eq_spec in Hm by done. destruct m as [o [a b]].
  apply elem_of_legalmoves_spec in Hm as [Hab Hl].
  destruct (sourcecombos_divisor_pos a b p Hpos Hab) as [Ha Hb].
  destruct (legal_result_positive o a b Ha Hb Hl) as (rslt & Hop & Hr).
  destruct (sourcecombos_removable a b p Hab) as (s1 & s2 & E1 & E2).
  set (p' := Puzzle (target p) (sorted_reverse (s2 ++ [rslt]))
    (if truthy (forced_operand p) then VInt rslt else forced_operand p)).
  exists p'. assert (move (o, (a, b)) p = (p', Ret ())) as Hmove.
  { apply move_Ret. exists s1, s2, rslt. split_and!; done. }
  split; [exact Hmove|]. split.
  - apply copy_and_move_Ret. exists p. split; [by apply clone_valid|done].
  - by eapply move_Ret_valid.
Qed.

(** * Properties of the object store *)

Section heap_facts.
Import (hints) Heap.

Lemma bind_Ret {A B} (c : Heap.H A) (k : A → Heap.H B) h a h1 :
  c h = Some (Ret a, h1) → (c ≫= k) h = k a h1.
Proof. unfold mbind, Heap.H_bind, Heap.bind. by intros ->. Qed.

Lemma bind_Raise {A B} (c : Heap.H A) (k : A → Heap.H B) h e h1 :
  c h = Some (Raise e, h1) → (c ≫= k) h = Some (Raise e, h1).
Proof. unfold mbind, Heap.H_bind, Heap.bind. by intros ->. Qed.

Lemma get_object_Some self o h :
  Heap.objects h !! self = Some o → Heap.get_object self h = Some (Ret o, h).
Proof. unfold Heap.get_object. by intros ->. Qed.

Lemma get_list_Some l xs h :
  Heap.lists h !! l = Some xs → Heap.get_list l h = Some (Ret xs, h).
Proof. unfold Heap.get_list. by intros ->. Qed.

Lemma set_object_Some self o o' h :
  Heap.objects h !! self = Some o →
  Heap.set_object self o' h
  = Some (Ret (), Heap.Store (<[self := o']> (Heap.objects h)) (Heap.lists h)).
Proof. unfold Heap.set_object. by intros ->. Qed.

Lemma set_list_Some l xs xs' h :
  Heap.lists h !! l = Some xs →
  Heap.set_list l xs' h
  = Some (Ret (), Heap.Store (Heap.objects h) (<[l := xs']> (Heap.lists h))).
Proof. unfold Heap.set_list. by intros ->. Qed.

Lemma fresh_list_None h : Heap.lists h !! fresh (dom (Heap.lists h)) = None.
Proof. apply not_elem_of_dom, is_fresh. Qed.

Lemma fresh_object_None h : Heap.objects h !! fresh (dom (Heap.objects h)) = None.
Proof. apply not_elem_of_dom, is_fresh. Qed.

(** [self.sources.remove(x)] rewrites the list object [self.sources]
    refers to and nothing else. *)
Lemma sources_remove_spec self x o xs h :
  Heap.objects h !! self = Some o → Heap.lists h !! Heap.o_sources o = Some xs →
  Heap.sources_remove self x h =
  match py_remove x xs with
  | Some xs' =>
      Some (Ret (),
            Heap.Store (Heap.objects h)
              (<[Heap.o_sources o := xs']> (Heap.lists h)))
  | None => Some (Raise ValueError, h)
  end.
Proof.
  intros Ho Hl. unfold Heap.sources_remove.
  rewrite (bind_Ret _ _ _ _ _ (get_object_Some _ _ _ Ho)).
  rewrite (bind_Ret _ _ _ _ _ (get_list_Some _ _ _ Hl)).
  destruct (py_remove x xs); [|done]. by erewrite set_list_Some.
Qed.

(** The constructor allocates a list object and an instance, both new,
    touches nothing that was there, and builds what [init] builds. *)
Lemma init_spec tgt srcs forced h :
  ∃ r h', Heap.init tgt srcs forced h = Some (r, h') ∧
    Heap.objects h ⊆ Heap.objects h' ∧ Heap.lists h ⊆ Heap.lists h' ∧
    match init tgt srcs forced with
    | Ret p =>
        ∃ c oc, r = Ret c ∧ Heap.objects h !! c = None ∧
          Heap.objects h' !! c = Some oc ∧ Heap.lists h !! Heap.o_sources oc = None ∧
          Heap.puzzle_at h' c = Some p
    | Raise e => r = Raise e
    end.
Proof.
  unfold Heap.init, init.
  set (l := fresh (dom (Heap.lists h))). set (xs := sorted_reverse srcs).
  set (h1 := Heap.Store (Heap.objects h) (<[l := xs]> (Heap.lists h))).
  set (self := fresh (dom (Heap.objects h))).
  set (oc := Heap.Object tgt forced l).
  set (h2 := Heap.Store (<[self := oc]> (Heap.objects h)) (<[l := xs]> (Heap.lists h))).
  assert (Heap.objects h !! self = None) as Hself by apply fresh_object_None.
  assert (Heap.lists h !! l = None) as Hl by apply fresh_list_None.
  assert (Heap.objects h ⊆ Heap.objects h2) as Hsub1 by by apply insert_subseteq.
  assert (Heap.lists h ⊆ Heap.lists h2) as Hsub2 by by apply insert_subseteq.
  assert (Heap.objects h2 !! self = Some oc) as Hoc by apply lookup_insert_eq.
  assert (Heap.lists h2 !! l = Some xs) as Hxs by apply lookup_insert_eq.
  rewrite (bind_Ret _ _ _ l h1) by done.
  rewrite (bind_Ret _ _ _ self h2) by done.
  rewrite (bind_Ret _ _ _ _ _ (get_object_Some _ _ _ Hoc)).
  rewrite (bind_Ret _ _ _ _ _ (get_list_Some (Heap.o_sources oc) _ _ Hxs)).
  simpl. destruct (py_last xs) as [smallest|e]; simpl.
  - rewrite (bind_Ret _ _ _ smallest h2) by done.
    case_decide.
    + by exists (Raise ValueError), h2.
    + exists (Ret self), h2. split_and!; [done..|].
      exists self, oc. split_and!; [done..|].
      unfold Heap.puzzle_at. rewrite Hoc. simpl.
      unfold h2 in Hxs. simpl in Hxs. by rewrite Hxs.
  - rewrite (bind_Raise _ _ _ e h2) by done.
    by exists (Raise e), h2.
Qed.

Lemma clone_spec self p h :
  Heap.puzzle_at h self = Some p →
  ∃ r h', Heap.clone self h = Some (r, h') ∧
    Heap.objects h ⊆ Heap.objects h' ∧ Heap.lists h ⊆ Heap.lists h' ∧
    match clone p with
    | Ret p' =>
        ∃ c oc, r = Ret c ∧ Heap.objects h !! c = None ∧
          Heap.objects h' !! c = Some oc ∧ Heap.lists h !! Heap.o_sources oc = None ∧
          Heap.puzzle_at h' c = Some p'
    | Raise e => r = Raise e
    end.
Proof.
  unfold Heap.puzzle_at, Heap.clone, clone. intros Hp.
  destruct (Heap.objects h !! self) as [o|] eqn:Ho; [|done]. simpl in Hp.
  destruct (Heap.lists h !! Heap.o_sources o) as [xs|] eqn:Hxs; [|done].
  injection Hp as <-. simpl.
  rewrite (bind_Ret _ _ _ _ _ (get_object_Some _ _ _ Ho)).
  rewrite (bind_Ret _ _ _ _ _ (get_list_Some _ _ _ Hxs)).
  apply init_spec.
Qed.

Lemma puzzle_at_Some h self p :
  Heap.puzzle_at h self = Some p ↔
  ∃ o, Heap.objects h !! self = Some o ∧
    Heap.lists h !! Heap.o_sources o = Some (sources p) ∧
    Heap.o_target o = target p ∧ Heap.o_forced o = forced_operand p.
Proof.
  unfold Heap.puzzle_at. destruct (Heap.objects h !! self) as [o|]; simpl.
  - destruct (Heap.lists h !! Heap.o_sources o) as [xs|] eqn:E; simpl.
    + split.
      * intros [= <-]. by exists o.
      * intros (o' & [= <-] & Hxs & Ht & Hf). rewrite E in Hxs.
        injection Hxs as ->. destruct p. simpl in *. by subst.
    + split; [done|]. intros (o' & [= <-] & Hxs & _). by rewrite E in Hxs.
  - split; [done|]. by intros (o' & ? & _).
Qed.

(** [self.move(m)] acts on the instance as [move] says, and on nothing
    else that was in the store; when it raises, [self.sources] is still
    the same list object, with the removals done. *)
Lemma move_spec self m o p h :
  Heap.objects h !! self = Some o →
  Heap.lists h !! Heap.o_sources o = Some (sources p) →
  Heap.o_target o = target p → Heap.o_forced o = forced_operand p →
  ∃ r h' o', Heap.move self m h = Some (r, h') ∧
    Heap.puzzle_at h' self = Some (move m p).1 ∧
    r = match (move m p).2 with Ret _ => Ret self | Raise e => Raise e end ∧
    (∀ c, c ≠ self → Heap.objects h' !! c = Heap.objects h !! c) ∧
    (∀ l, l ≠ Heap.o_sources o → is_Some (Heap.lists h !! l) →
          Heap.lists h' !! l = Heap.lists h !! l) ∧
    Heap.objects h' !! self = Some o' ∧
    (Heap.o_sources o' = Heap.o_sources o
     ∨ Heap.lists h !! Heap.o_sources o' = None) ∧
    ((move m p).2 ≠ Ret () → o' = o).
Proof.
  intros Ho Hl Ht Hf. destruct m as [op [a b]].
  rewrite move_unfold. unfold remove_operands, Heap.move.
  set (ls := Heap.o_sources o) in *.
  (* the states in which the call can stop with the removals done *)
  assert (∀ xs e,
    let h1 := Heap.Store (Heap.objects h) (<[ls := xs]> (Heap.lists h)) in
    ∃ (r : res Heap.loc) h' o', Some (Raise e, h1) = Some (r, h') ∧
      Heap.puzzle_at h' self
      = Some (Puzzle (target p) xs (forced_operand p)) ∧
      r = Raise e ∧
      (∀ c, c ≠ self → Heap.objects h' !! c = Heap.objects h !! c) ∧
      (∀ l, l ≠ ls → is_Some (Heap.lists h !! l) →
            Heap.lists h' !! l = Heap.lists h !! l) ∧
      Heap.objects h' !! self = Some o' ∧
      (Heap.o_sources o' = ls ∨ Heap.lists h !! Heap.o_sources o' = None) ∧
      (Raise e ≠ Ret () → o' = o)) as Hstop.
  { intros xs e h1. exists (Raise e), h1, o. split_and!; try done.
    - apply puzzle_at_Some. exists o. split_and!; [done| |done..].
      apply lookup_insert_eq.
    - intros l Hne _. simpl. by rewrite lookup_insert_ne.
    - by left. }
  pose proof (sources_remove_spec self a o (sources p) h Ho Hl) as R1.
  destruct (py_remove a (sources p)) as [s1|] eqn:E1; simpl.
  2:{ rewrite (bind_Raise _ _ _ _ _ R1).
      destruct (Hstop (sources p) ValueError) as (r & h' & o' & Heq & Hrest).
      exists r, h', o'. split; [|done].
      rewrite <- Heq. f_equal. f_equal. destruct h as [ob li]. simpl in *.
      f_equal. symmetry. by apply insert_id. }
  rewrite (bind_Ret _ _ _ _ _ R1). cbv beta.
  set (h1 := Heap.Store (Heap.objects h) (<[ls := s1]> (Heap.lists h))).
  assert (Heap.lists h1 !! ls = Some s1) as Hl1 by apply lookup_insert_eq.
  assert (Heap.sources_remove self b h1 =
    match py_remove b s1 with
    | Some xs' =>
        Some (Ret (),
              Heap.Store (Heap.objects h) (<[ls := xs']> (Heap.lists h)))
    | None => Some (Raise ValueError, h1)
    end) as R2.
  { rewrite (sources_remove_spec self b o s1 h1 Ho Hl1).
    destruct (py_remove b s1); [|done]. unfold h1. simpl. fold ls.
    by rewrite insert_insert_eq. }
  destruct (py_remove b s1) as [s2|] eqn:E2; simpl.
  2:{ rewrite (bind_Raise _ _ _ _ _ R2). apply Hstop. }
  rewrite (bind_Ret _ _ _ _ _ R2). cbv beta.
  set (h2 := Heap.Store (Heap.objects h) (<[ls := s2]> (Heap.lists h))).
  destruct (apply_op op a b) as [rslt|e]; simpl.
  2:{ rewrite (bind_Raise _ _ h2 e h2) by done. apply Hstop. }
  rewrite (bind_Ret _ _ h2 rslt h2) by done.
  case_decide as Hr; [apply Hstop|].
  (* the call returns *)
  set (o3 := if truthy (Heap.o_forced o)
             then Heap.Object (Heap.o_target o) (VInt rslt) ls else o).
  set (h3 := Heap.Store (<[self := o3]> (Heap.objects h)) (Heap.lists h2)).
  assert ((Heap.get_object self ≫= λ ob,
             if truthy (Heap.o_forced ob)
             then Heap.set_object self
                    (Heap.Object (Heap.o_target ob) (VInt rslt)
                       (Heap.o_sources ob))
             else Heap.ret ()) h2 = Some (Ret (), h3)) as R3.
  { rewrite (bind_Ret _ _ _ _ _ (get_object_Some self o h2 Ho)).
    unfold h3, o3. destruct (truthy (Heap.o_forced o)).
    - by erewrite set_object_Some.
    - unfold Heap.ret. by rewrite insert_id. }
  rewrite (bind_Ret _ _ _ _ _ R3). cbv beta.
  assert (Heap.objects h3 !! self = Some o3) as Ho3 by apply lookup_insert_eq.
  assert (Heap.o_sources o3 = ls) as Hls3.
  { unfold o3. by destruct (truthy _). }
  assert (Heap.lists h3 !! Heap.o_sources o3 = Some s2) as Hl3.
  { rewrite Hls3. apply lookup_insert_eq. }
  rewrite (bind_Ret _ _ _ _ _ (get_object_Some self o3 h3 Ho3)).
  rewrite (bind_Ret _ _ _ _ _ (get_list_Some _ s2 h3 Hl3)).
  set (l' := fresh (dom (Heap.lists h3))).
  set (ys := sorted_reverse (s2 ++ [rslt])).
  set (h4 := Heap.Store (Heap.objects h3) (<[l' := ys]> (Heap.lists h3))).
  rewrite (bind_Ret _ _ h3 l' h4) by done.
  set (o5 := Heap.Object (Heap.o_target o3) (Heap.o_forced o3) l').
  set (h5 := Heap.Store (<[self := o5]> (Heap.objects h4)) (Heap.lists h4)).
  rewrite (bind_Ret _ _ h4 () h5) by by erewrite set_object_Some.
  assert (Heap.lists h !! l' = None) as Hnew.
  { apply not_elem_of_dom. intros Hd. apply (is_fresh (dom (Heap.lists h3))).
    fold l'. simpl. rewrite dom_insert_L. apply elem_of_union. by right. }
  assert (l' ≠ ls) as Hne' by (intros E; rewrite E, Hl in Hnew; done).
  exists (Ret self), h5, o5. split_and!; try done.
  - apply puzzle_at_Some. exists o5. simpl. split_and!.
    + apply lookup_insert_eq.
    + apply lookup_insert_eq.
    + unfold o3. by destruct (truthy _).
    + unfold o3. rewrite <- Hf. by destruct (truthy _).
  - intros c Hne. simpl. by rewrite !lookup_insert_ne.
  - intros l Hne Hsome. simpl. rewrite !lookup_insert_ne; [done..|].
    intros <-. rewrite Hnew in Hsome. by destruct Hsome.
  - apply lookup_insert_eq.
  - by right.
Qed.

Lemma chainmode_spec v c oc h :
  Heap.objects h !! c = Some oc →
  Heap.chainmode v c h
  = Some (Ret (),
          Heap.Store
            (<[c := Heap.Object (Heap.o_target oc)
                      (if v then VChain else VNone) (Heap.o_sources oc)]>
               (Heap.objects h))
            (Heap.lists h)).
Proof.
  intros Hoc. unfold Heap.chainmode.
  rewrite (bind_Ret _ _ _ _ _ (get_object_Some c oc h Hoc)).
  by erewrite set_object_Some.
Qed.

(** Whatever is done to [c] later, an instance Heap.separate from it keeps
    its attributes and its list. *)
Lemma mutate_frame c ms : ∀ h self o,
  Heap.separate h self c → Heap.objects h !! self = Some o →
  ∃ h', Heap.mutate c ms h = Some h' ∧
    Heap.objects h' !! self = Some o ∧
    Heap.lists h' !! Heap.o_sources o = Heap.lists h !! Heap.o_sources o.
Proof.
  induction ms as [|mu ms IH]; intros h self o Hsep Ho; simpl.
  { by exists h. }
  destruct Hsep as (Hne & o0 & oc & Ho0 & Hoc & Hls & Hsome & [xs Hxs]).
  rewrite Ho in Ho0. injection Ho0 as <-.
  assert (∃ h1, match mu with
                | Heap.DoMove m => snd <$> Heap.move c m h
                | Heap.DoChainmode v => snd <$> Heap.chainmode v c h
                end = Some h1 ∧
            Heap.separate h1 self c ∧ Heap.objects h1 !! self = Some o ∧
            Heap.lists h1 !! Heap.o_sources o
            = Heap.lists h !! Heap.o_sources o) as (h1 & -> & Hsep1 & Ho1 & Hl1).
  { destruct mu as [m|v].
    - destruct (move_spec c m oc
        (Puzzle (Heap.o_target oc) xs (Heap.o_forced oc)) h Hoc Hxs
        eq_refl eq_refl)
        as (r & h1 & oc' & -> & Hp & _ & Hobj & Hlst & Hoc' & Hsrc & _).
      exists h1. simpl. split; [done|].
      assert (Heap.objects h1 !! self = Some o) as Ho1.
      { by rewrite Hobj. }
      assert (Heap.lists h1 !! Heap.o_sources o
              = Heap.lists h !! Heap.o_sources o) as Hl1.
      { by apply Hlst. }
      split_and!; [|done..]. split; [done|]. exists o, oc'.
      split_and!; [done..| | |].
      + destruct Hsrc as [->|Hnone]; [done|].
        intros E. rewrite <- E in Hnone. rewrite Hnone in Hsome.
        by destruct Hsome.
      + by rewrite Hl1.
      + apply puzzle_at_Some in Hp as (o'' & Ho'' & Hl'' & _).
        rewrite Hoc' in Ho''. injection Ho'' as <-. eauto.
    - rewrite (chainmode_spec v c oc h Hoc). simpl. eexists. split; [done|].
      simpl. rewrite lookup_insert_ne by done. split_and!; [|done..].
      split; [done|]. eexists o, _. simpl.
      rewrite lookup_insert_ne by done. rewrite lookup_insert_eq.
      split_and!; [done..| |]; simpl; eauto. }
  simpl. destruct (IH h1 self o Hsep1 Ho1) as (h' & Hm & Ho' & Hl').
  exists h'. split_and!; [done..|]. by rewrite Hl'.
Qed.

(** [copy_and_move] on the store: the receiver and everything else
    that was allocated are left as they were; the outcome is the one
    [copy_and_move] on states gives; the instance returned is a new
    object with a new list. *)
Lemma copy_and_move_spec self m p h :
  Heap.puzzle_at h self = Some p →
  ∃ r h', Heap.copy_and_move self m h = Some (r, h') ∧
    Heap.objects h ⊆ Heap.objects h' ∧ Heap.lists h ⊆ Heap.lists h' ∧
    match copy_and_move p m with
    | Ret p' =>
        ∃ c, r = Ret c ∧ Heap.objects h !! c = None ∧
          Heap.puzzle_at h' c = Some p' ∧ Heap.separate h' self c
    | Raise e => r = Raise e
    end.
Proof.
  intros Hp. unfold Heap.copy_and_move, copy_and_move.
  destruct (clone_spec self p h Hp) as (r1 & h1 & Hc & Hsub1 & Hsub2 & Hr1).
  destruct (clone p) as [pc|e]; simpl.
  2:{ subst r1. rewrite (bind_Raise _ _ _ _ _ Hc). by exists (Raise e), h1. }
  destruct Hr1 as (c & oc & -> & Hfresh & Hoc & Hlfresh & Hpc).
  rewrite (bind_Ret _ _ _ _ _ Hc).
  apply puzzle_at_Some in Hpc as Hpc'.
  destruct Hpc' as (oc' & Hoc' & Hlc & Htc & Hfc).
  rewrite Hoc in Hoc'. injection Hoc' as <-.
  destruct (move_spec c m oc pc h1 Hoc Hlc Htc Hfc)
    as (r & h2 & oc2 & Hm & Hp2 & Hr & Hobj & Hlst & Hoc2 & Hsrc & _).
  exists r, h2.
  apply puzzle_at_Some in Hp as (o & Ho & Hl & Ht & Hf).
  assert (self ≠ c) as Hne by (intros ->; by rewrite Ho in Hfresh).
  assert (Heap.o_sources o ≠ Heap.o_sources oc) as Hlne.
  { intros E. rewrite <- E, Hl in Hlfresh. done. }
  assert (Heap.objects h ⊆ Heap.objects h2) as Hsub1'.
  { apply map_subseteq_spec. intros i x Hi.
    assert (i ≠ c) by (intros ->; by rewrite Hi in Hfresh).
    rewrite Hobj by done. by eapply lookup_weaken. }
  assert (Heap.lists h ⊆ Heap.lists h2) as Hsub2'.
  { apply map_subseteq_spec. intros i x Hi.
    assert (i ≠ Heap.o_sources oc) by (intros ->; by rewrite Hi in Hlfresh).
    assert (Heap.lists h1 !! i = Some x) as Hi1 by by eapply lookup_weaken.
    rewrite Hlst; [done..|]. by rewrite Hi1. }
  split_and!; [done..|].
  destruct (move m pc) as [pc' [[]|e]]; simpl in *; [|done].
  exists c. split_and!; [done..|]. split; [done|]. exists o, oc2.
  split_and!; [by eapply lookup_weaken|done| | |].
  - destruct Hsrc as [->|Hnone]; [done|]. intros E.
    rewrite <- E in Hnone.
    by rewrite (lookup_weaken _ _ _ _ Hl Hsub2) in Hnone.
  - exists (sources p). by eapply lookup_weaken.
  - apply puzzle_at_Some in Hp2 as (o'' & Ho'' & Hl'' & _).
    rewrite Hoc2 in Ho''. injection Ho'' as <-. eauto.
Qed.

End heap_facts.

(** * Properties of the solver *)

Section solver_facts.
Context {P M C : Type} `{PuzzleState P M C}.

Implicit Types (g : @generator P M C _ _) (z : P) (m : M).

Lemma step_steps_to g : steps_to g (step g).1 (step g).2.
Proof.
  unfold step.
  destruct (expanding g) as [[[z movetrail] [|move moves]]|] eqn:E.
  - destruct (q g) as [|[z' t'] q'] eqn:Eq; simpl.
    + apply steps_exhausted; eauto.
    + eapply steps_dequeued; eauto.
  - destruct (ps_copy_and_move z move) as [z2|e] eqn:Ecm; simpl.
    + case_decide as Hin; simpl; [by eapply steps_discarded|].
      destruct (ps_endstate z2) eqn:Eend; simpl.
      * by eapply steps_yielded.
      * by eapply steps_enqueued.
    + by eapply steps_failed.
  - destruct (q g) as [|[z' t'] q'] eqn:Eq; simpl.
    + apply steps_exhausted; eauto.
    + eapply steps_dequeued; eauto.
Qed.

Lemma step_inv g ev g' : step g = (ev, g') → steps_to g ev g'.
Proof. intros E. pose proof (step_steps_to g) as Hs. by rewrite E in Hs. Qed.

(** ** The visited set never lets a canonical state in twice *)

Lemma trace_enqueued_fresh k : ∀ g,
  NoDup (ps_canonicalstate ∘ fst <$> enqueued (trace k g)) ∧
  ∀ e, e ∈ enqueued (trace k g) → ps_canonicalstate e.1 ∉ statetrail g.
Proof.
  induction k as [|k IH]; intros g; simpl.
  { split; [constructor|]. by intros e ?%not_elem_of_nil. }
  destruct (step g) as [ev g'] eqn:E. apply step_inv in E.
  destruct (IH g') as [Hnd Hfresh].
  inversion E; subst; simpl; try done.
  - split; [constructor|]. by intros e' ?%not_elem_of_nil.
  - split.
    + constructor; [|done]. intros (e' & Heq & Hin)%list_elem_of_fmap.
      apply Hfresh in Hin. simpl in *. set_solver.
    + intros e' [->|Hin]%elem_of_cons; [done|].
      apply Hfresh in Hin. simpl in Hin. set_solver.
  - split; [constructor|]. by intros e' ?%not_elem_of_nil.
Qed.

(** A call of [next], and so a call of [solve], only takes steps. *)
Lemma run_add k1 k2 g : run (k1 + k2) g = run k2 (run k1 g).
Proof. revert g. induction k1 as [|k1 IH]; intros g; simpl; [done|apply IH]. Qed.

Lemma next_run fuel : ∀ g r g', next fuel g = Some (r, g') → ∃ k, run k g = g'.
Proof.
  induction fuel as [|fuel IH]; intros g r g'; simpl; [done|].
  destruct (step g) as [ev g1] eqn:E.
  assert (run 1 g = g1) as Hone by (simpl; by rewrite E).
  destruct ev;
    try (intros (k & Hk)%IH; exists (1 + k)%nat; by rewrite run_add, Hone);
    intros [= <- <-]; by exists 1%nat.
Qed.

Lemma solve_loop_run fuel n todo : ∀ g sols r g',
  solve_loop fuel n todo g sols = Some (r, g') → ∃ k, run k g = g'.
Proof.
  induction todo as [|todo IH]; intros g sols r g'; simpl.
  { intros [= <- <-]. by exists 0%nat. }
  destruct (next fuel g) as [[nr g1]|] eqn:E; [|done].
  apply next_run in E as (k1 & Hk1).
  destruct nr as [sol z2| |e]; try (intros [= <- <-]; by exists k1).
  case_decide; [intros [= <- <-]; by exists k1|].
  intros (k2 & Hk2)%IH. exists (k1 + k2)%nat. by rewrite run_add, Hk1.
Qed.

(** ** What a step does with an unseen end state *)

Lemma step_end_state g z movetrail move moves z2 :
  expanding g = Some ((z, movetrail), move :: moves) →
  ps_copy_and_move z move = Ret z2 →
  ps_canonicalstate z2 ∉ statetrail g →
  ps_endstate z2 = true →
  step g = (Yielded (movetrail ++ [move]) z2,
            Generator (statetrail g) (q g) (Some ((z, movetrail), moves))
              (_maxq g) (_iterations g)).
Proof.
  intros E Hcm Hnew Hend. unfold step. rewrite E, Hcm.
  by rewrite decide_False, Hend by done.
Qed.

(** ** Paths *)

Lemma path_snoc p ms p1 m p2 :
  path p ms p1 → m ∈ ps_legalmoves p1 → ps_copy_and_move p1 m = Ret p2 →
  path p (ms ++ [m]) p2.
Proof.
  induction 1 as [p|p m0 p0 ms p1 Hm0 Hcm _ IH]; intros Hm Hc; simpl.
  - econstructor; [done..|constructor].
  - econstructor; [done..|]. by apply IH.
Qed.

Lemma path_snoc_inv p ms m p2 :
  path p (ms ++ [m]) p2 →
  ∃ p1, path p ms p1 ∧ m ∈ ps_legalmoves p1 ∧ ps_copy_and_move p1 m = Ret p2.
Proof.
  revert p. induction ms as [|m0 ms IH]; intros p; simpl.
  - inversion 1 as [|? ? p1 ? ? Hm Hcm Hp]; subst.
    inversion Hp; subst. exists p. split; [constructor|done].
  - inversion 1 as [|? ? p1 ? ? Hm Hcm Hp]; subst.
    destruct (IH _ Hp) as (p1' & Hp' & Hm' & Hcm').
    exists p1'. split; [by econstructor|done].
Qed.

End solver_facts.

(** ** Searching a graded state space

    The solver on a puzzle whose states carry a rank that every legal
    move lowers by one, whose legal moves always apply, and whose
    canonical state tells states apart.  [DigitsPuzzle] is one: the rank
    is the number of sources. *)
Section graded_search.
Context {P M C : Type} `{PuzzleState P M C}.
Variables (Inv : P → Prop) (rank : P → nat).

Hypothesis legal_applies : ∀ p m,
  Inv p → m ∈ ps_legalmoves p →
  ∃ p', ps_copy_and_move p m = Ret p' ∧ Inv p' ∧ rank p = S (rank p').

Hypothesis canonical_inj : ∀ p1 p2,
  Inv p1 → Inv p2 → ps_canonicalstate p1 = ps_canonicalstate p2 → p1 = p2.

Implicit Types (g : @generator P M C _ _) (z p : P) (m : M).

#[local] Abbreviation gen_ok := (gen_ok Inv).
#[local] Abbreviation pending := (pending rank).
#[local] Abbreviation potential := (potential rank).

Lemma path_Inv p ms p' : Inv p → path p ms p' → Inv p'.
Proof.
  intros Hp Hpath. induction Hpath as [|p m p1 ms p' Hm Hcm _ IH]; [done|].
  apply IH. destruct (legal_applies p m Hp Hm) as (p1' & Hcm' & Hi & _).
  congruence.
Qed.

Lemma path_rank p ms p' :
  Inv p → path p ms p' → rank p = (rank p' + length ms)%nat.
Proof.
  intros Hp Hpath. induction Hpath as [|p m p1 ms p' Hm Hcm _ IH]; simpl.
  - lia.
  - destruct (legal_applies p m Hp Hm) as (p1' & Hcm' & Hi & Hr).
    assert (p1' = p1) as -> by congruence. rewrite Hr, IH by done. lia.
Qed.

(** *** No exception *)

Lemma step_ok g ev g' :
  gen_ok g → step g = (ev, g') → gen_ok g' ∧ ∀ e, ev ≠ Failed e.
Proof.
  intros [Hq He] Hs%step_inv. unfold gen_ok.
  inversion Hs as [z t m ms e E Hcm|z t m ms z2 E Hcm Hin
    |z t m ms z2 E Hcm Hin Hend|z t m ms z2 E Hcm Hin Hend
    |Hdone Eq|z t q' Hdone Eq]; subst; simpl; rewrite ?E in He.
  - destruct He as [Hz Hsub].
    destruct (legal_applies z m Hz) as (p' & Hcm' & _); [set_solver|].
    congruence.
  - destruct He as [Hz Hsub]. split; [|done]. split; [done|].
    split; [done|set_solver].
  - destruct He as [Hz Hsub]. split; [|done]. split; [done|].
    split; [done|set_solver].
  - destruct He as [Hz Hsub]. split; [|done].
    destruct (legal_applies z m Hz) as (p' & Hcm' & Hp' & _); [set_solver|].
    assert (p' = z2) as -> by congruence.
    split; [|split; [done|set_solver]].
    apply Forall_app. split; [done|]. by apply Forall_singleton.
  - split; [|done]. split; [constructor|done].
  - rewrite Eq in Hq. apply Forall_cons in Hq as [Hz Hq'].
    split; [|done]. split; [done|]. split; [done|set_solver].
Qed.

Lemma next_ok fuel : ∀ g r g',
  gen_ok g → next fuel g = Some (r, g') → gen_ok g' ∧ ∀ e, r ≠ Raised e.
Proof.
  induction fuel as [|fuel IH]; intros g r g' Hok; simpl; [done|].
  destruct (step g) as [ev g1] eqn:E.
  destruct (step_ok g ev g1 Hok E) as [Hok1 Hnf].
  destruct ev; try (by apply IH); intros [= <- <-]; try done.
  by destruct (Hnf e).
Qed.

Lemma solve_loop_ok fuel n todo : ∀ g sols r g',
  gen_ok g → solve_loop fuel n todo g sols = Some (r, g') →
  gen_ok g' ∧ ∀ e, r ≠ Raise e.
Proof.
  induction todo as [|todo IH]; intros g sols r g' Hok; simpl.
  { by intros [= <- <-]. }
  destruct (next fuel g) as [[nr g1]|] eqn:E; [|done].
  destruct (next_ok fuel g nr g1 Hok E) as [Hok1 Hnr].
  destruct nr as [sol z2| |e].
  - case_decide; [by intros [= <- <-]|]. by apply IH.
  - by intros [= <- <-].
  - by destruct (Hnr e).
Qed.

Lemma solve_ok_init p : Inv p → gen_ok (_solve p).
Proof. intros Hp. split; simpl; [|done]. by repeat constructor. Qed.

(** *** Termination *)

Lemma weight_unfold p :
  Inv p → weight (rank p) p = S (pending p (ps_legalmoves p)).
Proof.
  intros Hp. unfold pending. destruct (rank p) as [|n] eqn:En; simpl.
  - destruct (ps_legalmoves p) as [|m ms] eqn:El; [done|].
    destruct (legal_applies p m Hp) as (p' & _ & _ & Hr);
      [rewrite El; by left|]. lia.
  - do 2 f_equal. apply Forall_fmap_ext_1, Forall_forall. intros m Hm.
    destruct (legal_applies p m Hp Hm) as (p' & -> & _ & Hr).
    do 2 f_equal. lia.
Qed.

Lemma sum_list_snoc (l : list nat) (x : nat) :
  sum_list (l ++ [x]) = (sum_list l + x)%nat.
Proof. induction l as [|y l IH]; simpl; lia. Qed.

Lemma pending_cons z m ms :
  pending z (m :: ms)
  = S (match ps_copy_and_move z m with
       | Ret p' => weight (rank p') p'
       | Raise _ => 0
       end + pending z ms).
Proof. reflexivity. Qed.

(** Every step that is not the last one uses up potential. *)
Lemma step_potential g ev g' :
  gen_ok g → step g = (ev, g') →
  match ev with
  | Exhausted | Failed _ => True
  | _ => (potential g' < potential g)%nat
  end.
Proof.
  intros [Hq He] Hs%step_inv. unfold potential.
  inversion Hs as [z t m ms e E Hcm|z t m ms z2 E Hcm Hin
    |z t m ms z2 E Hcm Hin Hend|z t m ms z2 E Hcm Hin Hend
    |Hdone Eq|z t q' Hdone Eq]; subst; cbn [q expanding];
    rewrite ?E in *; try done.
  - rewrite pending_cons. lia.
  - rewrite pending_cons. lia.
  - rewrite pending_cons, Hcm, fmap_app.
    change ((λ e : entry, weight (rank e.1) e.1) <$> [(z2, t ++ [m])])
      with [weight (rank z2) z2].
    rewrite sum_list_snoc. lia.
  - rewrite Eq in *. rewrite fmap_cons. cbn [sum_list sum_list_with fst].
    apply Forall_cons in Hq as [Hz _]. cbn [fst] in Hz.
    rewrite (weight_unfold z Hz).
    unfold id. destruct Hdone as [->|[[z0 t0] ->]]; cbn beta iota; [lia|].
    change (pending z0 []) with 0%nat. lia.
Qed.

(** [next] returns as soon as its fuel exceeds the potential. *)
Lemma next_terminates fuel : ∀ g,
  gen_ok g → (potential g < fuel)%nat → is_Some (next fuel g).
Proof.
  induction fuel as [|fuel IH]; intros g Hok Hlt; [lia|]. simpl.
  destruct (step g) as [ev g1] eqn:E.
  pose proof (step_potential g ev g1 Hok E) as Hdec.
  destruct (step_ok g ev g1 Hok E) as [Hok1 _].
  destruct ev; try done; apply IH; (done || lia).
Qed.

(** A step never adds potential, so the fuel that suffices for one call
    of [next] suffices for the calls that follow. *)
Lemma step_potential_le g ev g' :
  gen_ok g → step g = (ev, g') → (potential g' ≤ potential g)%nat.
Proof.
  intros Hok Hs. pose proof (step_potential g ev g' Hok Hs) as Hlt.
  destruct ev; try lia.
  - apply step_inv in Hs. inversion Hs; subst. unfold potential. simpl. lia.
  - apply step_inv in Hs. inversion Hs; subst. lia.
Qed.

Lemma next_potential fuel : ∀ g r g',
  gen_ok g → next fuel g = Some (r, g') → (potential g' ≤ potential g)%nat.
Proof.
  induction fuel as [|fuel IH]; intros g r g' Hok; simpl; [done|].
  destruct (step g) as [ev g1] eqn:E.
  pose proof (step_potential_le g ev g1 Hok E) as Hle.
  destruct (step_ok g ev g1 Hok E) as [Hok1 _].
  destruct ev; try (intros Hn; specialize (IH g1 r g' Hok1 Hn); lia);
    by intros [= <- <-].
Qed.

(** [solve] returns, whatever [n], once the fuel exceeds the potential
    of the generator it starts from. *)
Lemma solve_loop_terminates fuel n todo : ∀ g sols,
  gen_ok g → (potential g < fuel)%nat →
  ∃ r g', solve_loop fuel n todo g sols = Some (Ret r, g').
Proof.
  induction todo as [|todo IH]; intros g sols Hok Hfuel; simpl; [by eauto|].
  destruct (next_terminates fuel g Hok Hfuel) as [[nr g1] E]. rewrite E.
  destruct (next_ok fuel g nr g1 Hok E) as [Hok1 Hnr].
  pose proof (next_potential fuel g nr g1 Hok E) as Hle.
  destruct nr as [sol z2| |e].
  - case_decide; [by eauto|]. apply IH; [done|lia].
  - by eauto.
  - by destruct (Hnr e).
Qed.

(** *** Breadth-first order, up to the first solution *)

Variable p0 : P.
Hypothesis seed_Inv : Inv p0.

#[local] Abbreviation searching := (searching rank p0).
#[local] Abbreviation s_seed := (s_seed rank p0).
#[local] Abbreviation s_entries := (s_entries rank p0).
#[local] Abbreviation s_done := (s_done rank p0).
#[local] Abbreviation s_visited := (s_visited rank p0).
#[local] Abbreviation s_closed := (s_closed rank p0).
#[local] Abbreviation s_order := (s_order rank p0).
#[local] Abbreviation s_level := (s_level rank p0).

Lemma expanded_in_mono V V' s ms :
  V ⊆ V' → expanded_in V s ms → expanded_in V' s ms.
Proof.
  intros Hsub Hexp m z2 Hm Hcm. destruct (Hexp m z2 Hm Hcm). set_solver.
Qed.

Lemma searching_init : searching (_solve p0).
Proof.
  split; simpl; unfold frontier; simpl.
  - set_solver.
  - intros z trail [= -> ->]%list_elem_of_singleton.
    split; [constructor|set_solver].
  - done.
  - intros s ms Hpath Hin Hne. exfalso.
    apply elem_of_singleton in Hin.
    pose proof (path_Inv _ _ _ seed_Inv Hpath) as Hs.
    apply canonical_inj in Hin; [|done..]. subst s.
    apply path_rank in Hpath; [|done]. destruct ms; [done|]. simpl in Hpath. lia.
  - intros s ms Hpath Hin. left.
    apply elem_of_singleton in Hin.
    pose proof (path_Inv _ _ _ seed_Inv Hpath) as Hs.
    apply canonical_inj in Hin; [|done..]. subst s. set_solver.
  - repeat constructor.
  - intros e1 e2 ->%list_elem_of_singleton ->%list_elem_of_singleton. lia.
Qed.

Lemma searching_gen_ok g : searching g → gen_ok g.
Proof.
  intros Hs. split.
  - apply Forall_forall. intros [z t] Hin.
    destruct (s_entries g Hs z t) as [Hpath _].
    { unfold frontier. set_solver. }
    by eapply path_Inv.
  - destruct (expanding g) as [[[z t] moves]|] eqn:E; [|done].
    destruct (s_entries g Hs z t) as [Hpath _].
    { unfold frontier. rewrite E. set_solver. }
    split; [by eapply path_Inv|].
    destruct (s_done g Hs z t moves E) as (done & -> & _). set_solver.
Qed.

(** The steps that do not yield keep the invariant. *)
Lemma step_searching g ev g' :
  searching g → step g = (ev, g') →
  match ev with
  | Dequeued _ | Discarded _ _ | Enqueued _ => searching g'
  | _ => True
  end.
Proof.
  intros Hs Hstep%step_inv.
  inversion Hstep as [z t m ms e E Hcm|z t m ms z2 E Hcm Hin
    |z t m ms z2 E Hcm Hin Hend|z t m ms z2 E Hcm Hin Hend
    |Hdone Eq|z t q' Hdone Eq]; subst; try done; clear Hstep;
    match goal with |- searching ?x => set (g1 := x) end.
  - (* discarded *)
    assert (frontier g = (z, t) :: q g) as Hf by (unfold frontier; by rewrite E).
    assert (statetrail g1 = statetrail g) as Hst by done.
    assert (expanding g1 = Some ((z, t), ms)) as Hex by done.
    assert (frontier g1 = frontier g) as Hfr by by rewrite Hf.
    clearbody g1.
    destruct (s_entries g Hs z t) as [Hpath Hz]; [rewrite Hf; by left|].
    destruct (s_done g Hs z t (m :: ms) E) as (done & Hlm & Hexp).
    assert (m ∈ ps_legalmoves z) as Hm by (rewrite Hlm; set_solver).
    assert (path p0 (t ++ [m]) z2) as Hpath2 by by eapply path_snoc.
    split; rewrite ?Hst, ?Hfr; try by destruct Hs.
    rewrite Hex. intros z' t' moves' [= <- <- <-]. exists (done ++ [m]).
    split; [by rewrite <- app_assoc|].
    intros m' z2' [Hm'| ->%list_elem_of_singleton]%elem_of_app Hcm'.
    + exact (Hexp m' z2' Hm' Hcm').
    + assert (z2' = z2) as -> by congruence. split; [done|].
      eapply (s_visited g Hs); [done..|]. by destruct t.
  - (* enqueued *)
    assert (frontier g = (z, t) :: q g) as Hf by (unfold frontier; by rewrite E).
    set (V' := {[ps_canonicalstate z2]} ∪ statetrail g).
    assert (statetrail g1 = V') as Hst by done.
    assert (expanding g1 = Some ((z, t), ms)) as Hex by done.
    assert (frontier g1 = frontier g ++ [(z2, t ++ [m])]) as Hfr
      by by rewrite Hf.
    clearbody g1.
    destruct (s_entries g Hs z t) as [Hpath Hz]; [rewrite Hf; by left|].
    destruct (s_done g Hs z t (m :: ms) E) as (done & Hlm & Hexp).
    assert (m ∈ ps_legalmoves z) as Hm by (rewrite Hlm; set_solver).
    assert (path p0 (t ++ [m]) z2) as Hpath2 by by eapply path_snoc.
    pose proof (path_Inv _ _ _ seed_Inv Hpath) as Hiz.
    pose proof (path_Inv _ _ _ seed_Inv Hpath2) as Hiz2.
    destruct (legal_applies z m Hiz Hm) as (z2' & Hcm' & _ & Hrank).
    assert (z2' = z2) as -> by congruence.
    assert (statetrail g ⊆ V') as Hsub by set_solver.
    assert (∀ e : entry, e ∈ frontier g → rank e.1 ≤ rank z)%nat as Hhead.
    { intros e He. pose proof (s_order g Hs) as Hso. rewrite Hf in Hso, He.
      apply StronglySorted_cons in Hso as [Hall _].
      apply elem_of_cons in He as [->|He]; [done|].
      rewrite Forall_forall in Hall. by apply Hall. }
    split; rewrite ?Hst, ?Hfr.
    + pose proof (s_seed g Hs). set_solver.
    + intros z' t' [Hin'|[= -> ->]%list_elem_of_singleton]%elem_of_app.
      * destruct (s_entries g Hs z' t' Hin'). split; [done|set_solver].
      * split; [done|set_solver].
    + rewrite Hex. intros z' t' moves' [= <- <- <-]. exists (done ++ [m]).
      split; [by rewrite <- app_assoc|].
      intros m' z2' [Hm'| ->%list_elem_of_singleton]%elem_of_app Hcm2.
      * destruct (Hexp m' z2' Hm' Hcm2). split; [set_solver|done].
      * assert (z2' = z2) as -> by congruence. split; [set_solver|done].
    + intros s ms' Hps [Hin'%elem_of_singleton|Hin']%elem_of_union Hne.
      * pose proof (path_Inv _ _ _ seed_Inv Hps) as His.
        apply canonical_inj in Hin'; [|done..]. by subst s.
      * by eapply (s_visited g Hs).
    + intros s ms' Hps [Hin'%elem_of_singleton|Hin']%elem_of_union.
      * pose proof (path_Inv _ _ _ seed_Inv Hps) as His.
        apply canonical_inj in Hin'; [|done..]. subst s. left.
        rewrite fmap_app. set_solver.
      * destruct (s_closed g Hs s ms' Hps Hin') as [Hfr'|Hex'].
        -- left. rewrite fmap_app. set_solver.
        -- right. by eapply expanded_in_mono.
    + apply StronglySorted_app. split_and!.
      * intros e1 e2 He1 ->%list_elem_of_singleton. simpl.
        pose proof (s_level g Hs (z, t) e1) as Hl. simpl in Hl.
        specialize (Hl ltac:(rewrite Hf; by left) He1). lia.
      * apply (s_order g Hs).
      * repeat constructor.
    + intros e1 e2 [He1| ->%list_elem_of_singleton]%elem_of_app
        [He2| ->%list_elem_of_singleton]%elem_of_app; simpl.
      * by apply (s_level g Hs).
      * specialize (Hhead e1 He1). lia.
      * pose proof (s_level g Hs (z, t) e2) as Hl. simpl in Hl.
        specialize (Hl ltac:(rewrite Hf; by left) He2). lia.
      * lia.
  - (* dequeued *)
    assert (statetrail g1 = statetrail g) as Hst by done.
    assert (expanding g1 = Some ((z, t), ps_legalmoves z)) as Hex by done.
    assert (frontier g1 = q g) as Hfr by by rewrite Eq.
    clearbody g1.
    assert (∀ e : entry, e ∈ q g → e ∈ frontier g) as Hqf.
    { intros e He. unfold frontier. set_solver. }
    assert (∃ old, frontier g = old ++ q g ∧
      ∀ e : entry, e ∈ old →
        expanded_in (statetrail g) e.1 (ps_legalmoves e.1))
      as (old & Hf & Hold).
    { unfold frontier. destruct Hdone as [E|[[z' t'] E]]; rewrite E.
      - exists []. split; [done|]. by intros e ?%not_elem_of_nil.
      - exists [(z', t')]. split; [done|].
        intros e ->%list_elem_of_singleton. simpl.
        destruct (s_done g Hs z' t' [] E) as (done & Hlm & Hexp).
        rewrite app_nil_r in Hlm. by rewrite Hlm. }
    split; rewrite ?Hst, ?Hfr.
    + apply (s_seed g Hs).
    + intros z' t' Hin'. by apply (s_entries g Hs), Hqf.
    + rewrite Hex. intros z' t' moves' [= <- <- <-]. exists [].
      split; [done|]. by intros m' z2' ?%not_elem_of_nil.
    + apply (s_visited g Hs).
    + intros s ms' Hps Hin'.
      destruct (s_closed g Hs s ms' Hps Hin') as [Hfr'|Hex']; [|by right].
      rewrite Hf, fmap_app in Hfr'.
      apply elem_of_app in Hfr' as [Hfr'|Hfr']; [|by left].
      right. apply list_elem_of_fmap in Hfr' as (e & -> & He). by apply Hold.
    + pose proof (s_order g Hs) as Hso. rewrite Hf in Hso.
      by apply StronglySorted_app in Hso as (_ & _ & Hso).
    + intros e1 e2 He1 He2. apply (s_level g Hs); by apply Hqf.
Qed.

(** Every state within [k] moves of the seed has been visited, and is
    not an end state unless it is the seed, once the frontier entries
    less than [k] moves away are expanded. *)
Lemma searched_within g k :
  searching g →
  (∀ z t, (z, t) ∈ frontier g → (length t < k)%nat →
     expanded_in (statetrail g) z (ps_legalmoves z)) →
  ∀ ms s, path p0 ms s → (length ms ≤ k)%nat →
    ps_canonicalstate s ∈ statetrail g ∧ (ms ≠ [] → ps_endstate s = false).
Proof.
  intros Hs Hfront ms. induction ms as [|m ms IH] using rev_ind;
    intros s Hpath Hlen.
  { assert (s = p0) as -> by by inversion Hpath.
    split; [apply (s_seed g Hs)|done]. }
  rewrite length_app in Hlen. simpl in Hlen.
  apply path_snoc_inv in Hpath as (p1 & Hp1 & Hm & Hcm).
  destruct (IH p1 Hp1) as [Hin _]; [lia|].
  assert (expanded_in (statetrail g) p1 (ps_legalmoves p1)) as Hexp.
  { destruct (s_closed g Hs p1 ms Hp1 Hin) as [Hfr|Hexp]; [|done].
    apply list_elem_of_fmap in Hfr as ([z t] & -> & He). simpl.
    apply (Hfront z t He). destruct (s_entries g Hs z t He) as [Hpt _].
    apply path_rank in Hpt, Hp1; [|done..]. simpl in Hp1. lia. }
  destruct (Hexp m s Hm Hcm). done.
Qed.

(** The first solution yielded is a path to an end state, and no
    shorter non-empty path leads to one. *)
Lemma step_yield_shortest g sol z2 g' :
  searching g → step g = (Yielded sol z2, g') →
  sol ≠ [] ∧ path p0 sol z2 ∧ ps_endstate z2 = true ∧
  ∀ ms s, ms ≠ [] → path p0 ms s → ps_endstate s = true →
    (length sol ≤ length ms)%nat.
Proof.
  intros Hs Hstep%step_inv.
  inversion Hstep as [|
    |z t m moves z2' E Hcm Hin Hend| | |]; subst; clear Hstep.
  assert (frontier g = (z, t) :: q g) as Hf by (unfold frontier; by rewrite E).
  destruct (s_entries g Hs z t) as [Hpath Hz]; [rewrite Hf; by left|].
  destruct (s_done g Hs z t (m :: moves) E) as (done & Hlm & Hexp).
  assert (m ∈ ps_legalmoves z) as Hm by (rewrite Hlm; set_solver).
  split; [by destruct t|]. split; [by eapply path_snoc|]. split; [done|].
  intros ms s Hne Hps Hes. rewrite length_app. simpl.
  destruct (decide (length ms ≤ length t)%nat) as [Hle|]; [|lia]. exfalso.
  destruct (searched_within g (length t) Hs) with (ms := ms) (s := s)
    as [_ Hfalse]; [|done..|].
  - intros z' t' He Hlt. exfalso.
    destruct (s_entries g Hs z' t' He) as [Hpt _].
    pose proof (s_order g Hs) as Hso. rewrite Hf in Hso, He.
    apply StronglySorted_cons in Hso as [Hall _].
    rewrite Forall_forall in Hall.
    apply path_rank in Hpt, Hpath; [|done..].
    apply elem_of_cons in He as [[= -> ->]|He]; [lia|].
    specialize (Hall _ He). simpl in Hall. lia.
  - rewrite Hfalse in Hes; done.
Qed.

(** When the search runs out of entries before anything was yielded,
    no move sequence leads to an end state. *)
Lemma step_exhausted_none g g' :
  searching g → step g = (Exhausted, g') →
  ∀ ms s, ms ≠ [] → path p0 ms s → ps_endstate s = false.
Proof.
  intros Hs Hstep%step_inv.
  inversion Hstep as [| | | |Hdone Eq|]; subst; clear Hstep.
  intros ms s Hne Hps.
  destruct (searched_within g (length ms) Hs) with (ms := ms) (s := s)
    as [_ Hend]; [|done..|by apply Hend].
  intros z t He _. unfold frontier in He. rewrite Eq, app_nil_r in He.
  destruct Hdone as [E|[[z' t'] E]]; rewrite E in He.
  - by apply not_elem_of_nil in He.
  - apply list_elem_of_singleton in He as [= -> ->].
    destruct (s_done g Hs z' t' [] E) as (done & Hlm & Hexp).
    rewrite app_nil_r in Hlm. by rewrite Hlm.
Qed.

Lemma next_first fuel : ∀ g r g',
  searching g → next fuel g = Some (r, g') →
  match r with
  | Next sol z2 =>
      sol ≠ [] ∧ path p0 sol z2 ∧ ps_endstate z2 = true ∧
      ∀ ms s, ms ≠ [] → path p0 ms s → ps_endstate s = true →
        (length sol ≤ length ms)%nat
  | StopIteration =>
      ∀ ms s, ms ≠ [] → path p0 ms s → ps_endstate s = false
  | Raised _ => False
  end.
Proof.
  induction fuel as [|fuel IH]; intros g r g' Hs; simpl; [done|].
  destruct (step g) as [ev g1] eqn:E.
  pose proof (step_searching g ev g1 Hs E) as Hs1.
  destruct ev as [e|m z2|sol z2|e| |e]; try by apply IH.
  - intros [= <- <-]. by eapply step_yield_shortest.
  - intros [= <- <-]. by eapply step_exhausted_none.
  - intros [= <- <-].
    destruct (step_ok g _ g1 (searching_gen_ok g Hs) E) as [_ Hnf].
    by destruct (Hnf e).
Qed.

(** [solve(puzzle, 1)] on a graded puzzle: with fuel for the whole
    search it returns either a shortest solution or the empty list, and
    the empty list only if no move sequence reaches an end state. *)
Lemma solve_first fuel :
  (weight (rank p0) p0 < fuel)%nat →
  (∃ sol s, solve fuel p0 1 = Some (Ret (Solution sol)) ∧
     sol ≠ [] ∧ path p0 sol s ∧ ps_endstate s = true ∧
     ∀ ms s', ms ≠ [] → path p0 ms s' → ps_endstate s' = true →
       (length sol ≤ length ms)%nat) ∨
  (solve fuel p0 1 = Some (Ret (Solutions [])) ∧
     ∀ ms s, ms ≠ [] → path p0 ms s → ps_endstate s = false).
Proof.
  intros Hfuel. unfold solve, solve_run. simpl.
  destruct (next_terminates fuel (_solve p0)) as [[r g'] Hn].
  { by apply solve_ok_init. }
  { unfold potential. simpl. lia. }
  rewrite Hn. pose proof (next_first fuel _ r g' searching_init Hn) as Hr.
  destruct r as [sol z2| |e]; simpl; [|by right|done].
  left. exists sol, z2. done.
Qed.

End graded_search.

(** * DigitsPuzzle under the solver *)

Lemma digits_legal_applies tgt (p : puzzle) (m : move_tuple) :
  valid_for tgt p → m ∈ ps_legalmoves p →
  ∃ p', ps_copy_and_move p m = Ret p' ∧ valid_for tgt p' ∧
    nsources p = S (nsources p').
Proof.
  intros [Hv Ht] Hm. simpl in *.
  destruct (legalmoves_applicable p m Hv Hm) as (p' & _ & Hcm & Hv').
  exists p'. split; [done|].
  destruct (copy_and_move_valid p m p' Hcm) as [_ Ht'].
  split; [split; [done|congruence]|]. by apply (copy_and_move_length p m).
Qed.

(** A canonical state determines the sources and the forced operand. *)
Lemma canonicalstate_inj p1 p2 :
  canonicalstate p1 = canonicalstate p2 ↔
  sources p1 = sources p2 ∧ forced_operand p1 = forced_operand p2.
Proof.
  unfold canonicalstate. split.
  - intros [Hs Hf]%app_inj_tail. split; [|done].
    by apply (inj (fmap VInt)) in Hs.
  - by intros [-> ->].
Qed.

Lemma digits_canonical_inj tgt (p1 p2 : puzzle) :
  valid_for tgt p1 → valid_for tgt p2 →
  ps_canonicalstate p1 = ps_canonicalstate p2 → p1 = p2.
Proof.
  intros [_ Ht1] [_ Ht2] [Hs Hf]%canonicalstate_inj.
  destruct p1, p2. simpl in *. congruence.
Qed.

Lemma move_nonpositive o a b p s1 s2 rslt :
  py_remove a (sources p) = Some s1 → py_remove b s1 = Some s2 →
  apply_op o a b = Ret rslt → rslt ≤ 0 →
  move (o, (a, b)) p
  = (Puzzle (target p) s2 (forced_operand p), Raise ValueError).
Proof.
  intros E1 E2 Hop Hr. rewrite move_unfold. unfold remove_operands.
  rewrite E1, E2. simpl. rewrite Hop. by rewrite decide_True.
Qed.

(** * The claims of the specification *)

(** ** Canonical state *)

(** C1, as the code has it.  [canonicalstate()] is the tuple of the
    sources followed by the forced operand: for two instances (whose
    sources are kept in descending order) the canonical states are equal
    exactly when the multisets of sources are the same and the forced
    operands are the same.  Equal tuples hash alike.  The target is not
    part of the tuple. *)
Theorem canonicalstate_eq_iff (p1 p2 : puzzle) :
  sorted_sources p1 → sorted_sources p2 →
  canonicalstate p1 = canonicalstate p2 ↔
  sources p1 ≡ₚ sources p2 ∧ forced_operand p1 = forced_operand p2.
Proof.
  intros Hs1 Hs2. rewrite canonicalstate_inj. split.
  - by intros [-> ->].
  - intros [Hp ->]. split; [|done].
    by apply (Sorted_unique Zge_rel).
Qed.

Lemma canonicalstate_eq_iff_witness :
  let p1 := Puzzle 10 [7; 3] VChain in
  let p2 := Puzzle 11 [7; 3] VChain in
  init 10 [3; 7] VChain = Ret p1 ∧ init 11 [7; 3] VChain = Ret p2 ∧
  (canonicalstate p1 = canonicalstate p2 ↔
   sources p1 ≡ₚ sources p2 ∧ forced_operand p1 = forced_operand p2).
Proof.
  intros p1 p2.
  assert (init 10 [3; 7] VChain = Ret p1) as H1 by reflexivity.
  assert (init 11 [7; 3] VChain = Ret p2) as H2 by reflexivity.
  split; [exact H1|]. split; [exact H2|].
  apply (canonicalstate_eq_iff p1 p2).
  - exact (valid_sorted _ (init_valid _ _ _ _ H1)).
  - exact (valid_sorted _ (init_valid _ _ _ _ H2)).
Defined.

(** C1 as stated fails: two puzzles that differ in their target alone
    have the same canonical state. *)
Lemma canonicalstate_ignores_target :
  let p1 := Puzzle 10 [7; 3] VNone in
  let p2 := Puzzle 11 [7; 3] VNone in
  init 10 [3; 7] VNone = Ret p1 ∧ init 11 [3; 7] VNone = Ret p2 ∧
  target p1 ≠ target p2 ∧ canonicalstate p1 = canonicalstate p2.
Proof. repeat split; done. Qed.

(** ** Legal moves *)

(** C6.  On a state with positive sources, [legalmoves()] is the list
    the specification describes: an add for every generated pair, then a
    subtract for every pair with [a > b], then a multiply for every pair
    with [b ≠ 1], then a divide for every pair with [a] evenly divisible
    by [b] and [b ≠ 1]; within each operator in the order of the pairs. *)
Theorem legalmoves_union (p : puzzle) :
  positive_sources p →
  legalmoves p = legalmoves_spec p ∧
  ∀ o a b, (o, (a, b)) ∈ legalmoves p ↔
           (a, b) ∈ _sourcecombos p ∧ legal o a b.
Proof.
  intros Hpos. rewrite (legalmoves_eq_spec p Hpos). split; [done|].
  intros o a b. apply elem_of_legalmoves_spec.
Qed.

Lemma legalmoves_union_witness :
  let p := Puzzle 10 [14; 7; 3; 2] (VInt 7) in
  positive_sources p ∧ legalmoves p = legalmoves_spec p ∧
  legalmoves p
  = [(Add, (7, 14)); (Add, (7, 3)); (Add, (7, 2));
     (Sub, (7, 3)); (Sub, (7, 2));
     (Mul, (7, 14)); (Mul, (7, 3)); (Mul, (7, 2))].
Proof.
  intros p.
  assert (positive_sources p) as Hpos.
  { unfold positive_sources, p. simpl. repeat constructor. }
  split; [exact Hpos|].
  split; [exact (proj1 (legalmoves_union p Hpos))|reflexivity].
Defined.

(** C7.  When the forced operand is a value [f] present in sources,
    [_sourcecombos()] takes the first occurrence of [f], and only that
    one, out of the pool and pairs [f], as first operand, with every
    value left, other occurrences of [f] included. *)
Theorem forced_operand_pairs (p : puzzle) (f : Z) :
  forced_operand p = VInt f → f ∈ sources p →
  ∃ l1 l2,
    sources p = l1 ++ f :: l2 ∧ (f ∉ l1) ∧
    _sourcecombos p = pair f <$> (l1 ++ l2) ∧
    py_remove f (sources p) = Some (l1 ++ l2) ∧
    length (filter (λ ab, ab = (f, f)) (_sourcecombos p))
    = pred (length (filter (λ x, x = f) (sources p))).
Proof.
  intros Hf Hin. unfold _sourcecombos. rewrite Hf, bool_decide_true by done.
  destruct (forced_pool_split f (sources p) Hin) as (l1 & l2 & Hs & Hn & Hp).
  exists l1, l2. rewrite Hp. split_and!; [done..| |].
  - rewrite <- Hp. by apply forced_pool_remove.
  - rewrite Hs, !filter_app, filter_cons_True, !length_app by done. simpl.
    rewrite fmap_app, filter_app, length_app.
    assert (∀ l, length (filter (λ ab, ab = (f, f)) (pair f <$> l))
                 = length (filter (λ x, x = f) l)) as Hcount.
    { induction l as [|x l IH]; [done|]. rewrite fmap_cons, !filter_cons.
      destruct (decide (x = f)) as [->|Hne].
      - rewrite decide_True by done. simpl. by rewrite IH.
      - rewrite decide_False by congruence. done. }
    rewrite !Hcount. lia.
Qed.

Lemma forced_operand_pairs_witness :
  let p := Puzzle 10 [7; 7; 3] (VInt 7) in
  _sourcecombos p = [(7, 7); (7, 3)] ∧
  ∃ l1 l2,
    sources p = l1 ++ 7 :: l2 ∧ (7 ∉ l1) ∧
    _sourcecombos p = pair 7 <$> (l1 ++ l2) ∧
    py_remove 7 (sources p) = Some (l1 ++ l2) ∧
    length (filter (λ ab, ab = (7, 7)) (_sourcecombos p))
    = pred (length (filter (λ x, x = 7) (sources p))).
Proof.
  intros p. split; [reflexivity|].
  apply (forced_operand_pairs p 7); [reflexivity|].
  unfold p. simpl. by left.
Defined.

(** ** Positive sources *)

(** C9.  The constructor raises on any non-positive source value and
    otherwise builds a state whose sources are all positive; [move], as
    it returns or as it raises, [chainmode], [clone] and [copy_and_move]
    keep them positive, and the result [move] puts back is positive. *)
Theorem sources_always_positive :
  (∀ tgt srcs forced x,
     x ∈ srcs → x ≤ 0 → init tgt srcs forced = Raise ValueError) ∧
  (∀ tgt srcs forced p,
     init tgt srcs forced = Ret p →
     positive_sources p ∧ Forall (λ x, 0 < x) srcs) ∧
  (∀ m p, positive_sources p → positive_sources (move m p).1) ∧
  (∀ o a b p p',
     move (o, (a, b)) p = (p', Ret ()) →
     ∃ rslt, apply_op o a b = Ret rslt ∧ 0 < rslt ∧ rslt ∈ sources p') ∧
  (∀ v p, positive_sources p → positive_sources (chainmode v p)) ∧
  (∀ p c, clone p = Ret c → positive_sources c) ∧
  (∀ p m c, copy_and_move p m = Ret c → positive_sources c).
Proof.
  split_and!.
  - apply init_nonpositive.
  - intros tgt srcs forced p Hi. split; [by eapply init_valid|].
    by apply init_Ret in Hi as (_ & ? & _).
  - apply move_positive.
  - intros o a b p p' (s1 & s2 & rslt & _ & _ & Hop & Hr & ->)%move_Ret.
    exists rslt. split_and!; [done..|]. simpl.
    rewrite sorted_reverse_perm. set_solver.
  - by intros v p.
  - intros p c Hc. by eapply init_valid.
  - intros p m c Hc. by eapply copy_and_move_valid.
Qed.

Lemma sources_always_positive_witness :
  init 10 [3; 0; 7] VNone = Raise ValueError ∧
  init 10 [3; -2] VChain = Raise ValueError ∧
  positive_sources (Puzzle 10 [7; 3] VNone) ∧
  positive_sources (move (Sub, (3, 7)) (Puzzle 10 [7; 3] VNone)).1.
Proof.
  destruct sources_always_positive as (Hneg & Hinit & Hmove & _).
  assert (positive_sources (Puzzle 10 [7; 3] VNone)) as Hpos.
  { apply (Hinit 10 [3; 7] VNone). reflexivity. }
  split_and!.
  - apply (Hneg 10 [3; 0; 7] VNone 0); [|lia]. set_solver.
  - apply (Hneg 10 [3; -2] VChain (-2)); [|lia]. set_solver.
  - exact Hpos.
  - apply Hmove, Hpos.
Defined.

(** ** [copy_and_move] and [move] on the object store *)

(** C8.  Whatever the move, and whether [copy_and_move] returns or
    raises, the receiver keeps its attributes and its list object keeps
    its content; so does everything else that was allocated.  The
    instance returned is a new object with a new list, and no later call
    of [move] or [chainmode] on it changes the receiver. *)
Theorem copy_and_move_leaves_receiver
    (h : Heap.heap) (self : Heap.loc) (p : puzzle) (m : move_tuple) :
  Heap.puzzle_at h self = Some p →
  ∃ r h', Heap.copy_and_move self m h = Some (r, h') ∧
    Heap.objects h' !! self = Heap.objects h !! self ∧
    (∀ o, Heap.objects h !! self = Some o →
          Heap.lists h' !! Heap.o_sources o = Heap.lists h !! Heap.o_sources o) ∧
    Heap.puzzle_at h' self = Some p ∧
    match copy_and_move p m with
    | Ret p' => ∃ c, r = Ret c ∧ Heap.puzzle_at h' c = Some p'
    | Raise e => r = Raise e
    end ∧
    ∀ c, r = Ret c →
      c ≠ self ∧ Heap.objects h !! c = None ∧
      ∀ later, ∃ h'', Heap.mutate c later h' = Some h'' ∧
        Heap.objects h'' !! self = Heap.objects h !! self ∧
        (∀ o, Heap.objects h !! self = Some o →
              Heap.lists h'' !! Heap.o_sources o
              = Heap.lists h !! Heap.o_sources o) ∧
        Heap.puzzle_at h'' self = Some p.
Proof.
  intros Hp.
  destruct (copy_and_move_spec self m p h Hp) as (r & h' & Hcm & Hso & Hsl & Hr).
  apply puzzle_at_Some in Hp as Hp'.
  destruct Hp' as (o & Ho & Hl & Ht & Hf).
  assert (Heap.objects h' !! self = Some o) as Ho' by by eapply lookup_weaken.
  assert (Heap.lists h' !! Heap.o_sources o = Some (sources p)) as Hl'
    by by eapply lookup_weaken.
  exists r, h'. split_and!; [done|by rewrite Ho, Ho'| | | |].
  - intros o' Ho2. rewrite Ho in Ho2. injection Ho2 as <-. by rewrite Hl, Hl'.
  - apply puzzle_at_Some. by exists o.
  - destruct (copy_and_move p m) as [p'|e]; [|done].
    destruct Hr as (c & -> & _ & Hpc & _). eauto.
  - intros c ->. destruct (copy_and_move p m) as [p'|e]; [|done].
    destruct Hr as (c' & [= <-] & Hfresh & Hpc & Hsep).
    split; [by destruct Hsep|]. split; [done|]. intros later.
    destruct (mutate_frame c later h' self o Hsep Ho') as (h'' & Hmu & Ho'' & Hl'').
    exists h''. split_and!; [done|by rewrite Ho, Ho''| |].
    + intros o' Ho2. rewrite Ho in Ho2. injection Ho2 as <-.
      by rewrite Hl'', Hl', Hl.
    + apply puzzle_at_Some. exists o. split_and!; [done| |done..].
      by rewrite Hl'', Hl'.
Qed.

Lemma copy_and_move_leaves_receiver_witness :
  let h := Heap.Store {[1%positive := Heap.Object 10 VNone 1%positive]}
                      {[1%positive := [14; 13; 13; 3; 2]]} in
  let p := Puzzle 10 [14; 13; 13; 3; 2] VNone in
  Heap.puzzle_at h 1%positive = Some p ∧
  ∃ r h', Heap.copy_and_move 1%positive (Sub, (13, 14)) h = Some (r, h') ∧
    Heap.puzzle_at h' 1%positive = Some p.
Proof.
  intros h p.
  assert (Heap.puzzle_at h 1%positive = Some p) as Hp by reflexivity.
  split; [exact Hp|].
  destruct (copy_and_move_leaves_receiver h 1%positive p (Sub, (13, 14)) Hp)
    as (r & h' & Hcm & _ & _ & Hp' & _).
  exists r, h'. split; [exact Hcm|exact Hp'].
Defined.

(** C10.  When [move(m)] raises because the result is not positive, the
    receiver's list object has lost one occurrence of each operand and
    has not received the result: the raise comes after the removals.
    [copy_and_move] with the same move raises too and leaves the
    receiver's list as it was, the removals having hit the clone. *)
Theorem move_not_atomic (h : Heap.heap) (self : Heap.loc) (ob : Heap.object)
    (srcs s1 s2 : list Z) (o : op) (a b rslt : Z) :
  Heap.objects h !! self = Some ob →
  Heap.lists h !! Heap.o_sources ob = Some srcs →
  py_remove a srcs = Some s1 → py_remove b s1 = Some s2 →
  apply_op o a b = Ret rslt → rslt ≤ 0 →
  (∃ h', Heap.move self (o, (a, b)) h = Some (Raise ValueError, h') ∧
     Heap.objects h' !! self = Some ob ∧
     Heap.lists h' !! Heap.o_sources ob = Some s2 ∧
     srcs ≡ₚ a :: b :: s2) ∧
  (∃ e h', Heap.copy_and_move self (o, (a, b)) h = Some (Raise e, h') ∧
     Heap.objects h' !! self = Some ob ∧
     Heap.lists h' !! Heap.o_sources ob = Some srcs).
Proof.
  intros Ho Hl E1 E2 Hop Hr.
  set (p := Puzzle (Heap.o_target ob) srcs (Heap.o_forced ob)).
  pose proof (move_nonpositive o a b p s1 s2 rslt E1 E2 Hop Hr) as Hmove.
  split.
  - destruct (move_spec self (o, (a, b)) ob p h Ho Hl eq_refl eq_refl)
      as (r & h' & o' & Hm & Hp' & -> & _ & _ & Ho' & _ & Hsame).
    rewrite Hmove in Hp', Hm, Hsame. simpl in *.
    rewrite (Hsame ltac:(done)) in Ho'.
    exists h'. split_and!; [done..| |].
    + apply puzzle_at_Some in Hp' as (o'' & Ho'' & Hl'' & _).
      rewrite Ho' in Ho''. by injection Ho'' as <-.
    + apply py_remove_Some in E1, E2. by rewrite E1, E2.
  - assert (Heap.puzzle_at h self = Some p) as Hp.
    { apply puzzle_at_Some. by exists ob. }
    destruct (copy_and_move_spec self (o, (a, b)) p h Hp)
      as (r & h' & Hcm & Hso & Hsl & Hres).
    destruct (copy_and_move p (o, (a, b))) as [p'|e] eqn:Ecm.
    + exfalso. apply copy_and_move_Ret in Ecm as (c & _ & Hm).
      apply move_Ret in Hm as (_ & _ & rslt' & _ & _ & Hop' & Hr' & _).
      rewrite Hop in Hop'. injection Hop' as <-. lia.
    + subst r. exists e, h'. split_and!; [done|by eapply lookup_weaken..].
Qed.

Lemma move_not_atomic_witness :
  let ob := Heap.Object 10 VNone 1%positive in
  let h := Heap.Store {[1%positive := ob]} {[1%positive := [14; 13; 13; 3; 2]]} in
  ∃ h', Heap.move 1%positive (Sub, (13, 13)) h = Some (Raise ValueError, h') ∧
    Heap.objects h' !! 1%positive = Some ob ∧
    Heap.lists h' !! 1%positive = Some [14; 3; 2].
Proof.
  intros ob h.
  destruct (move_not_atomic h 1%positive ob [14; 13; 13; 3; 2]
              [14; 13; 3; 2] [14; 3; 2] Sub 13 13 0)
    as [(h' & Hm & Ho & Hl & _) _]; [reflexivity..|lia|].
  exists h'. split; [exact Hm|]. split; [exact Ho|exact Hl].
Defined.

(** ** The solver *)

(** C3.  Every move [legalmoves()] yields on a valid state applies: its
    operands can be removed one after the other, its result is positive,
    and [move] and [copy_and_move] return, with a valid state; unless the
    forced operand is active the first operand is at least the second;
    and [solve] never ends with an exception: given fuel for the whole
    search it returns. *)
Theorem legalmoves_always_apply (p : puzzle) :
  valid p →
  (∀ o a b, (o, (a, b)) ∈ legalmoves p →
     ∃ s1 s2 rslt p',
       py_remove a (sources p) = Some s1 ∧ py_remove b s1 = Some s2 ∧
       apply_op o a b = Ret rslt ∧ 0 < rslt ∧
       move (o, (a, b)) p = (p', Ret ()) ∧
       copy_and_move p (o, (a, b)) = Ret p' ∧ valid p') ∧
  (∀ h self m, Heap.puzzle_at h self = Some p → m ∈ legalmoves p →
     ∃ c h', Heap.copy_and_move self m h = Some (Ret c, h')) ∧
  (forced_in_sources p = false →
     ∀ o a b, (o, (a, b)) ∈ legalmoves p → b ≤ a) ∧
  (∀ fuel n e g, solve_run fuel p n ≠ Some (Raise e, g)) ∧
  (∀ fuel n, (search_fuel p ≤ fuel)%nat →
     ∃ r g, solve_run fuel p n = Some (Ret r, g)).
Proof.
  intros Hv. split_and!.
  - intros o a b Hm.
    destruct (legalmoves_applicable p _ Hv Hm) as (p' & Hmove & Hcm & Hv').
    apply move_Ret in Hmove as Hparts.
    destruct Hparts as (s1 & s2 & rslt & E1 & E2 & Hop & Hr & _).
    exists s1, s2, rslt, p'. done.
  - intros h self m Hp Hm.
    destruct (legalmoves_applicable p _ Hv Hm) as (p' & _ & Hcm & _).
    destruct (copy_and_move_spec self m p h Hp) as (r & h' & Hh & _ & _ & Hr).
    rewrite Hcm in Hr. destruct Hr as (c & -> & _). eauto.
  - intros Hf o a b Hm.
    rewrite legalmoves_eq_spec in Hm by apply Hv.
    apply elem_of_legalmoves_spec in Hm as [Hab _].
    eapply sourcecombos_ordered; [apply Hv|done..].
  - intros fuel n e g Hrun. unfold solve_run in Hrun.
    eapply (solve_loop_ok (valid_for (target p)) nsources
              (digits_legal_applies (target p))
              (digits_canonical_inj (target p))) in Hrun as [_ Hne].
    + by apply (Hne e).
    + apply solve_ok_init. by split.
  - intros fuel n Hfuel. unfold solve_run.
    apply (solve_loop_terminates (valid_for (target p)) nsources
             (digits_legal_applies (target p))
             (digits_canonical_inj (target p))).
    + apply solve_ok_init. by split.
    + unfold search_fuel in Hfuel. unfold potential. simpl. lia.
Qed.

Lemma legalmoves_always_apply_witness :
  let p := Puzzle 10 [14; 13; 3; 2] VChain in
  valid p ∧
  copy_and_move p (FloorDiv, (14, 2)) = Ret (Puzzle 10 [13; 7; 3] (VInt 7)) ∧
  (∀ fuel n e g, solve_run fuel p n ≠ Some (Raise e, g)) ∧
  ∃ r g, solve_run (search_fuel p) p 3 = Some (Ret r, g).
Proof.
  intros p.
  assert (valid p) as Hv.
  { apply (init_valid 10 [3; 14; 2; 13] VChain). reflexivity. }
  destruct (legalmoves_always_apply p Hv) as (_ & _ & _ & Hnoraise & Hret).
  split; [exact Hv|]. split; [reflexivity|]. split; [exact Hnoraise|].
  apply Hret. lia.
Defined.

(** C5.  Whatever the puzzle, the canonical states of the seed and of
    the entries appended to the queue during any number of steps of the
    generator are pairwise distinct, different move orders reaching the
    same canonical state included; and the generator a call of [solve]
    leaves behind was reached from the seed by such steps alone. *)
Theorem solver_never_revisits {P M C : Type} `{PuzzleState P M C}
    (puzzle : P) :
  (∀ k, NoDup (ps_canonicalstate ∘ fst <$>
                 ((puzzle, []) :: enqueued (trace k (_solve puzzle))))) ∧
  (∀ fuel n r g', solve_run fuel puzzle n = Some (r, g') →
     ∃ k, run k (_solve puzzle) = g').
Proof.
  split.
  - intros k.
    destruct (trace_enqueued_fresh k (_solve puzzle)) as [Hnd Hfresh].
    rewrite fmap_cons. constructor; [|done].
    intros (e & Heq & Hin)%list_elem_of_fmap. apply Hfresh in Hin.
    simpl in *. set_solver.
  - intros fuel n r g' Hrun. by eapply solve_loop_run.
Qed.

Lemma solver_never_revisits_witness :
  let p := Puzzle 10 [14; 13; 3; 2] VChain in
  NoDup (canonicalstate ∘ fst <$> ((p, []) :: enqueued (trace 50 (_solve p)))) ∧
  solve_run 10 p 0 = Some (Ret (Solutions []), _solve p) ∧
  ∃ k, run k (_solve p) = _solve p.
Proof.
  intros p. destruct (solver_never_revisits p) as [Hnd Hrun].
  split; [exact (Hnd 50%nat)|]. split; [reflexivity|].
  exact (Hrun 10%nat 0 (Ret (Solutions [])) (_solve p) eq_refl).
Defined.

(** C2, as the code has it.  When the copy made for a move is an end
    state whose canonical state is not in the visited set, the step
    yields the trail with the move appended and leaves the visited set
    and the queue as they were: the canonical state of an end state is
    not recorded. *)
Theorem end_state_yielded_not_recorded {P M C : Type} `{PuzzleState P M C}
    (g : generator) (z : P) (movetrail : list M) (move : M) (moves : list M)
    (z2 : P) (fuel : nat) :
  expanding g = Some ((z, movetrail), move :: moves) →
  ps_copy_and_move z move = Ret z2 →
  ps_canonicalstate z2 ∉ statetrail g →
  ps_endstate z2 = true →
  ∃ g', next (S fuel) g = Some (Next (movetrail ++ [move]) z2, g') ∧
    statetrail g' = statetrail g ∧ q g' = q g ∧
    expanding g' = Some ((z, movetrail), moves) ∧
    ps_canonicalstate z2 ∉ statetrail g'.
Proof.
  intros E Hcm Hnew Hend. eexists. split.
  - simpl. by rewrite (step_end_state g z movetrail move moves z2).
  - done.
Qed.

Lemma end_state_yielded_not_recorded_witness :
  let z := Puzzle 4 [2; 2] VNone in
  let g := Generator {[ canonicalstate z ]} []
             (Some ((z, []), [(Add, (2, 2)); (Mul, (2, 2)); (FloorDiv, (2, 2))]))
             0 1 in
  step (_solve z) = (Dequeued (z, []), g) ∧
  ∃ g', next 1 g = Some (Next [(Add, (2, 2))] (Puzzle 4 [4] VNone), g') ∧
    statetrail g' = statetrail g ∧ q g' = q g ∧
    expanding g'
    = Some ((z, []), [(Mul, (2, 2)); (FloorDiv, (2, 2))]) ∧
    canonicalstate (Puzzle 4 [4] VNone) ∉ statetrail g'.
Proof.
  intros z g. split; [reflexivity|].
  refine (end_state_yielded_not_recorded g z [] (Add, (2, 2))
            [(Mul, (2, 2)); (FloorDiv, (2, 2))] (Puzzle 4 [4] VNone) 0 _ _ _ _).
  - reflexivity.
  - reflexivity.
  - simpl. rewrite not_elem_of_singleton. discriminate.
  - reflexivity.
Defined.

(** C2 as stated fails: asked for two solutions of target 4 from sources
    2 and 2, [solve] returns the add and the multiply, which end in the
    same canonical state; for target 6 from sources 4, 2 and 2 it returns
    the same add twice, once for each 2. *)
Lemma two_solutions_same_end_state :
  let p := Puzzle 4 [2; 2] VNone in
  let p' := Puzzle 6 [4; 2; 2] VNone in
  init 4 [2; 2] VNone = Ret p ∧
  solve 10 p 2
  = Some (Ret (Solutions [[(Add, (2, 2))]; [(Mul, (2, 2))]])) ∧
  yielded (trace 3 (_solve p))
  = [([(Add, (2, 2))], Puzzle 4 [4] VNone);
     ([(Mul, (2, 2))], Puzzle 4 [4] VNone)] ∧
  [(Add, (2, 2))] ≠ [(Mul, (2, 2))] ∧
  canonicalstate (Puzzle 4 [4] VNone) = canonicalstate (Puzzle 4 [4] VNone) ∧
  init 6 [2; 4; 2] VNone = Ret p' ∧
  solve 10 p' 2
  = Some (Ret (Solutions [[(Add, (4, 2))]; [(Add, (4, 2))]])) ∧
  yielded (trace 3 (_solve p'))
  = [([(Add, (4, 2))], Puzzle 6 [6; 2] VNone);
     ([(Add, (4, 2))], Puzzle 6 [6; 2] VNone)].
Proof. repeat split; try (vm_compute; reflexivity). discriminate. Qed.



